(** * pci_debug: the PCI BAR debug shell, embedded from [pci_debug.c]

    The development follows the C file top-down:
    - [CInt]      the fixed-width integer arithmetic the C code relies on;
    - [Scanf]     the [sscanf] conversions used by the command parsers;
    - the device, the mapped memory and the session state;
    - the low-level access functions [write_8] ... [read_be32];
    - the commands [display_mem], [change_mem], [fill_mem], [change_endian],
      the dispatcher [process_command] and the loop [parse_command];
    - the properties of the tool. *)

From Stdlib Require Import ZArith List String Ascii Bool Lia.
Import ListNotations.
Local Open Scope string_scope.
Local Open Scope list_scope.
Local Open Scope Z_scope.

(** ** Fixed-width integers

    [int] and [unsigned int] are 32 bits wide, [unsigned short] 16 and
    [unsigned char] 8.  A value of a C type is a [Z] inside the range of the
    type; every conversion is written out.  Signed overflow is modelled as
    two's-complement wrap-around. *)
Module CInt.

Definition to_uint (x : Z) : Z := x mod 2 ^ 32.
Definition to_int (x : Z) : Z := (x + 2 ^ 31) mod 2 ^ 32 - 2 ^ 31.
Definition to_ushort (x : Z) : Z := x mod 2 ^ 16.
Definition to_uchar (x : Z) : Z := x mod 2 ^ 8.

(** [a + b] and [a * b] at type [int]. *)
Definition int_add (a b : Z) : Z := to_int (a + b).
Definition int_mul (a b : Z) : Z := to_int (a * b).
(** [a + b] at type [unsigned int] (either operand may be an [int]). *)
Definition uint_add (a b : Z) : Z := to_uint (a + b).
(** [a > b] after the usual arithmetic conversions to [unsigned int]. *)
Definition uint_gt (a b : Z) : bool := to_uint b <? to_uint a.

Definition is_int (x : Z) : Prop := - 2 ^ 31 <= x < 2 ^ 31.
Definition is_uint (x : Z) : Prop := 0 <= x < 2 ^ 32.

(** [bswap_16] and [bswap_32] of <byteswap.h>. *)
Definition bswap_16 (x : Z) : Z :=
  Z.lor (Z.land (Z.shiftr x 8) 255) (Z.shiftl (Z.land x 255) 8).

Definition bswap_32 (x : Z) : Z :=
  Z.lor (Z.lor (Z.shiftr (Z.land x 4278190080) 24)
               (Z.shiftr (Z.land x 16711680) 8))
        (Z.lor (Z.shiftl (Z.land x 65280) 8)
               (Z.shiftl (Z.land x 255) 24)).

End CInt.
Import CInt.

(** ** Characters and strings

    A C string is the run of characters before the first NUL; [cget] is the
    indexing [s[i]], which sees the terminator at the end of the [string]. *)
Definition NUL : ascii := "000"%char.

Definition cget (s : string) (i : nat) : ascii :=
  match String.get i s with
  | Some c => c
  | None => NUL
  end.

Definition char_code (c : ascii) : Z := Z.of_nat (nat_of_ascii c).

(** ** [sscanf]

    The conversions of the C library that the parsers use: [%*c], [%c], [%x],
    [%d] and white space in the format.  The model follows glibc on an LP64
    host: a number is read by [strtoul]/[strtol] at 64 bits (saturating) and
    stored through a 32-bit pointer; an input failure before anything was
    assigned returns [EOF]. *)
Module Scanf.

Definition EOF : Z := -1.

Inductive directive : Type :=
| D_space                (* white space in the format *)
| D_lit (c : ascii)      (* an ordinary character *)
| D_skip_char            (* %*c *)
| D_char                 (* %c *)
| D_hex                  (* %x *)
| D_dec.                 (* %d *)

Definition isspace (c : ascii) : bool :=
  let n := char_code c in (n =? 32) || ((9 <=? n) && (n <=? 13)).

Fixpoint parse_format (f : string) : list directive :=
  match f with
  | EmptyString => []
  | String "%" (String "*" (String "c" r)) => D_skip_char :: parse_format r
  | String "%" (String "c" r) => D_char :: parse_format r
  | String "%" (String "x" r) => D_hex :: parse_format r
  | String "%" (String "d" r) => D_dec :: parse_format r
  | String c r =>
      (if isspace c then D_space else D_lit c) :: parse_format r
  end.

(** End of the input string: nothing left before the terminator. *)
Definition at_end (s : string) : bool :=
  match s with
  | EmptyString => true
  | String c _ => Ascii.eqb c NUL
  end.

Definition rest (s : string) : string :=
  match s with
  | EmptyString => EmptyString
  | String _ r => r
  end.

Fixpoint skip_space (s : string) : string :=
  match s with
  | String c r => if isspace c then skip_space r else s
  | EmptyString => s
  end.

Definition digit_of (base : Z) (c : ascii) : option Z :=
  let n := char_code c in
  let d := if (48 <=? n) && (n <=? 57) then n - 48
           else if (97 <=? n) && (n <=? 102) then n - 87
           else if (65 <=? n) && (n <=? 70) then n - 55
           else 16 in
  if d <? base then Some d else None.

(** Reads the longest run of digits; returns the value read so far, the
    number of digits and the unread input. *)
Fixpoint scan_digits (base : Z) (s : string) (acc : Z) (n : nat)
  : Z * nat * string :=
  match s with
  | String c r =>
      match digit_of base c with
      | Some d => scan_digits base r (acc * base + d) (S n)
      | None => (acc, n, s)
      end
  | EmptyString => (acc, n, s)
  end.

Inductive scanned (A : Type) : Type :=
| Scanned (a : A) (unread : string)
| InputFailure
| MatchingFailure.
Arguments Scanned {A} a unread.
Arguments InputFailure {A}.
Arguments MatchingFailure {A}.

Definition is_x (c : ascii) : bool :=
  Ascii.eqb c "x" || Ascii.eqb c "X".

(** The text of a number: white space, an optional sign, an optional [0]
    (followed by [x] in base 16), digits.  Yields the sign and magnitude. *)
Definition scan_number (base : Z) (s : string) : scanned (bool * Z) :=
  let s := skip_space s in
  if at_end s then InputFailure
  else
    let '(neg, s1) :=
      match s with
      | String "-" r => (true, r)
      | String "+" r => (false, r)
      | _ => (false, s)
      end in
    let '(zero, s2) :=
      match s1 with
      | String "0" r =>
          (1%nat, if (base =? 16) && is_x (cget r 0) then rest r else r)
      | _ => (0%nat, s1)
      end in
    let '(v, n, s3) := scan_digits base s2 0 zero in
    match n with
    | O => MatchingFailure
    | S _ => Scanned (neg, v) s3
    end.

Definition ULONG_MAX : Z := 2 ^ 64 - 1.
Definition LONG_MAX : Z := 2 ^ 63 - 1.
Definition LONG_MIN : Z := - 2 ^ 63.

Definition strtoul (neg : bool) (v : Z) : Z :=
  if ULONG_MAX <? v then ULONG_MAX
  else if neg then (- v) mod 2 ^ 64 else v.

Definition strtol (neg : bool) (v : Z) : Z :=
  if neg then Z.max (- v) LONG_MIN else Z.min v LONG_MAX.

(** [done] is the list of values assigned so far, in argument order. *)
Definition input_error (done : list Z) : Z * list Z :=
  match done with
  | [] => (EOF, [])
  | _ => (Z.of_nat (List.length done), done)
  end.

Definition conv_error (done : list Z) : Z * list Z :=
  (Z.of_nat (List.length done), done).

Fixpoint run (fmt : list directive) (s : string) (done : list Z)
  : Z * list Z :=
  match fmt with
  | [] => conv_error done
  | D_space :: fmt' => run fmt' (skip_space s) done
  | D_lit c :: fmt' =>
      if at_end s then input_error done
      else if Ascii.eqb (cget s 0) c then run fmt' (rest s) done
      else conv_error done
  | D_skip_char :: fmt' =>
      if at_end s then input_error done else run fmt' (rest s) done
  | D_char :: fmt' =>
      if at_end s then input_error done
      else run fmt' (rest s) (done ++ [char_code (cget s 0)])
  | D_hex :: fmt' =>
      match scan_number 16 s with
      | Scanned (neg, v) r => run fmt' r (done ++ [to_uint (strtoul neg v)])
      | InputFailure => input_error done
      | MatchingFailure => conv_error done
      end
  | D_dec :: fmt' =>
      match scan_number 10 s with
      | Scanned (neg, v) r => run fmt' r (done ++ [to_int (strtol neg v)])
      | InputFailure => input_error done
      | MatchingFailure => conv_error done
      end
  end.

(** [sscanf str format ...]: the return value and the values stored
    through the pointer arguments, first argument first. *)
Definition sscanf (str format : string) : Z * list Z :=
  run (parse_format format) str [].

End Scanf.
Import Scanf.

(** ** The device, the mapped memory and the session state *)

(** The values of [__BYTE_ORDER] (<endian.h>): the byte order of the host. *)
Inductive byte_order : Type := LITTLE_ENDIAN | BIG_ENDIAN.

Definition byte_order_eqb (a b : byte_order) : bool :=
  match a, b with
  | LITTLE_ENDIAN, LITTLE_ENDIAN | BIG_ENDIAN, BIG_ENDIAN => true
  | _, _ => false
  end.

(** [device_t], with the fields the shell uses after start-up.  Memory is
    indexed from [dev->maddr], so that [dev->addr] is the index [offset]. *)
Record device_t : Type := mk_device {
  bar : Z;
  size : Z;      (* unsigned int: size of the region in bytes *)
  offset : Z     (* unsigned int: offset of the region in the mapping *)
}.

Definition dev_addr (dev : device_t) : Z := offset dev.

(** What the process does to the mapping, in program order: the volatile
    loads and stores (a store with the bytes it puts down, lowest address
    first) and the [msync] calls. *)
Inductive bus_event : Type :=
| Load (p : Z) (bytes : nat)
| Store (p : Z) (data : list Z)
| Msync (p : Z) (bytes : nat).

(** The calls of [printf], one constructor per format string. *)
Inductive printf_call : Type :=
| P_help
| P_syntax_error               (* "Syntax error (use ? for help)\n" *)
| P_invalid_address (max : Z)  (* "Error: invalid address (maximum allowed is %.8X\n" *)
| P_row (a : Z)                (* "\n%.8X: " *)
| P_val (digits : nat) (v : Z) (* "%.2X ", "%.4X ", "%.8X " *)
| P_nl                         (* "\n" *)
| P_little_endian              (* "Endian mode: little-endian\n" *)
| P_big_endian.                (* "Endian mode: big-endian\n" *)

(** The bytes seen through [dev->maddr], by byte index.  The map is total:
    an access outside the region, or outside the mapped pages, reads or
    writes the byte at that index; the model has no fault. *)
Definition memory : Type := Z -> Z.

Record state : Type := mk_state {
  mem : memory;               (* the bytes of the mapping *)
  bus : list bus_event;
  stdout : list printf_call;
  big_endian : Z              (* static int big_endian *)
}.

(** [static int big_endian = 0;] *)
Definition initial_state (m : memory) : state :=
  {| mem := m; bus := []; stdout := []; big_endian := 0 |}.

(** State-passing computations. *)
Definition M (A : Type) : Type := state -> A * state.

Definition ret {A} (a : A) : M A := fun st => (a, st).

Definition bind {A B} (m : M A) (k : A -> M B) : M B :=
  fun st => k (fst (m st)) (snd (m st)).

Definition exec {A} (m : M A) (st : state) : state := snd (m st).
Definition eval {A} (m : M A) (st : state) : A := fst (m st).

Notation "x <- m ;; k" := (bind m (fun x => k))
  (at level 61, m at next level, right associativity).
Notation "m ;; k" := (bind m (fun _ => k))
  (at level 61, right associativity).

Definition printf (p : printf_call) : M unit := fun st =>
  (tt, {| mem := mem st; bus := bus st;
          stdout := stdout st ++ [p]; big_endian := big_endian st |}).

Definition get_big_endian : M Z := fun st => (big_endian st, st).

Definition set_big_endian (v : Z) : M unit := fun st =>
  (tt, {| mem := mem st; bus := bus st;
          stdout := stdout st; big_endian := v |}).

(** *** Bytes of a value *)

(** The [n] low bytes of [v], least significant first. *)
Fixpoint le_bytes (n : nat) (v : Z) : list Z :=
  match n with
  | O => []
  | S n' => Z.land v 255 :: le_bytes n' (Z.shiftr v 8)
  end.

Fixpoint le_value (bs : list Z) : Z :=
  match bs with
  | [] => 0
  | b :: bs' => b + 256 * le_value bs'
  end.

Definition poke (m : memory) (p b : Z) : memory :=
  fun q => if q =? p then b else m q.

Fixpoint store_bytes (m : memory) (p : Z) (bs : list Z) : memory :=
  match bs with
  | [] => m
  | b :: bs' => store_bytes (poke m p b) (p + 1) bs'
  end.

Fixpoint load_bytes (m : memory) (p : Z) (n : nat) : list Z :=
  match n with
  | O => []
  | S n' => m p :: load_bytes m (p + 1) n'
  end.

(** Loop [for (i = first; i < bound; i = next i) body]; the callers give the
    fuel [bound], enough for a counter that starts at 0 and grows. *)
Fixpoint for_lt (fuel : nat) (i bound : Z) (next : Z -> Z)
  (body : Z -> M unit) : M unit :=
  match fuel with
  | O => ret tt
  | S fuel' =>
      if i <? bound
      then body i ;; for_lt fuel' (next i) bound next body
      else ret tt
  end.

Section Host.

(** [__BYTE_ORDER] *)
Variable BYTE_ORDER : byte_order.

(** The object representation of an [n]-byte unsigned value on the host. *)
Definition native_bytes (n : nat) (v : Z) : list Z :=
  match BYTE_ORDER with
  | LITTLE_ENDIAN => le_bytes n v
  | BIG_ENDIAN => rev (le_bytes n v)
  end.

Definition native_value (bs : list Z) : Z :=
  match BYTE_ORDER with
  | LITTLE_ENDIAN => le_value bs
  | BIG_ENDIAN => le_value (rev bs)
  end.

(** [*(volatile T * )p = v] for an [n]-byte unsigned type [T]. *)
Definition volatile_store (n : nat) (p v : Z) : M unit := fun st =>
  let data := native_bytes n v in
  (tt, {| mem := store_bytes (mem st) p data;
          bus := bus st ++ [Store p data];
          stdout := stdout st; big_endian := big_endian st |}).

(** [*(volatile T * )p] *)
Definition volatile_load (n : nat) (p : Z) : M Z := fun st =>
  (native_value (load_bytes (mem st) p n),
   {| mem := mem st; bus := bus st ++ [Load p n];
      stdout := stdout st; big_endian := big_endian st |}).

(** [msync(p, n, MS_SYNC | MS_INVALIDATE)] *)
Definition msync (p : Z) (n : nat) : M unit := fun st =>
  (tt, {| mem := mem st; bus := bus st ++ [Msync p n];
          stdout := stdout st; big_endian := big_endian st |}).

(** *** Raw pointer read/write access

    The parameters have types [unsigned int addr] and [unsigned char],
    [unsigned short] or [unsigned int data]: the arguments are converted
    on entry. *)

Definition write_8 (dev : device_t) (addr data : Z) : M unit :=
  let addr := to_uint addr in
  let data := to_uchar data in
  volatile_store 1 (dev_addr dev + addr) data ;;
  msync (dev_addr dev + addr) 1.

Definition read_8 (dev : device_t) (addr : Z) : M Z :=
  let addr := to_uint addr in
  volatile_load 1 (dev_addr dev + addr).

Definition write_le16 (dev : device_t) (addr data : Z) : M unit :=
  let addr := to_uint addr in
  let data := to_ushort data in
  let data := if negb (byte_order_eqb BYTE_ORDER LITTLE_ENDIAN)
              then bswap_16 data else data in
  volatile_store 2 (dev_addr dev + addr) data ;;
  msync (dev_addr dev + addr) 2.

Definition read_le16 (dev : device_t) (addr : Z) : M Z :=
  let addr := to_uint addr in
  data <- volatile_load 2 (dev_addr dev + addr) ;;
  let data := if negb (byte_order_eqb BYTE_ORDER LITTLE_ENDIAN)
              then bswap_16 data else data in
  ret (to_ushort data).

Definition write_be16 (dev : device_t) (addr data : Z) : M unit :=
  let addr := to_uint addr in
  let data := to_ushort data in
  let data := if byte_order_eqb BYTE_ORDER LITTLE_ENDIAN
              then bswap_16 data else data in
  volatile_store 2 (dev_addr dev + addr) data ;;
  msync (dev_addr dev + addr) 2.

Definition read_be16 (dev : device_t) (addr : Z) : M Z :=
  let addr := to_uint addr in
  data <- volatile_load 2 (dev_addr dev + addr) ;;
  let data := if byte_order_eqb BYTE_ORDER LITTLE_ENDIAN
              then bswap_16 data else data in
  ret (to_ushort data).

Definition write_le32 (dev : device_t) (addr data : Z) : M unit :=
  let addr := to_uint addr in
  let data := to_uint data in
  let data := if negb (byte_order_eqb BYTE_ORDER LITTLE_ENDIAN)
              then bswap_32 data else data in
  volatile_store 4 (dev_addr dev + addr) data ;;
  msync (dev_addr dev + addr) 4.

Definition read_le32 (dev : device_t) (addr : Z) : M Z :=
  let addr := to_uint addr in
  data <- volatile_load 4 (dev_addr dev + addr) ;;
  let data := if negb (byte_order_eqb BYTE_ORDER LITTLE_ENDIAN)
              then bswap_32 data else data in
  ret data.

Definition write_be32 (dev : device_t) (addr data : Z) : M unit :=
  let addr := to_uint addr in
  let data := to_uint data in
  let data := if byte_order_eqb BYTE_ORDER LITTLE_ENDIAN
              then bswap_32 data else data in
  volatile_store 4 (dev_addr dev + addr) data ;;
  msync (dev_addr dev + addr) 4.

Definition read_be32 (dev : device_t) (addr : Z) : M Z :=
  let addr := to_uint addr in
  data <- volatile_load 4 (dev_addr dev + addr) ;;
  let data := if byte_order_eqb BYTE_ORDER LITTLE_ENDIAN
              then bswap_32 data else data in
  ret data.

(** *** User interface *)

Definition display_help (dev : device_t) : M unit := printf P_help.

(** Lines 389-404 of [display_mem]: the arguments [width], [addr], [len],
    or [None] on a syntax error.  A variable that [sscanf] does not assign
    keeps its initial value. *)
Definition display_mem_args (cmd : string) : option (Z * Z * Z) :=
  if Ascii.eqb (cget cmd 1) " " then
    let '(status, v) := sscanf cmd "%*c %x %x" in
    if negb (status =? 2) then None
    else Some (32, to_int (nth 0 v 0), to_int (nth 1 v 0))
  else
    let '(status, v) := sscanf cmd "%*c%d %x %x" in
    if negb (status =? 3) then None
    else Some (nth 0 v 32, to_int (nth 1 v 0), to_int (nth 2 v 0)).

(** Lines 405-459 of [display_mem]. *)
Definition display_mem_range (dev : device_t) (width addr len : Z) : M Z :=
  if uint_gt addr (size dev) then
    printf (P_invalid_address (size dev)) ;; ret 0
  else
    (* Length is in bytes *)
    let len := if uint_gt (int_add addr len) (size dev)
               then (* Truncate *) to_int (size dev) else len in
    match width with
    | 8 =>
        for_lt (Z.to_nat len) 0 len (fun i => i + 1) (fun i =>
          (if Z.rem i 16 =? 0 then printf (P_row (int_add addr i))
           else ret tt) ;;
          d8 <- read_8 dev (int_add addr i) ;;
          printf (P_val 2 d8)) ;;
        printf P_nl
    | 16 =>
        for_lt (Z.to_nat len) 0 len (fun i => int_add i 2) (fun i =>
          (if Z.rem i 16 =? 0 then printf (P_row (int_add addr i))
           else ret tt) ;;
          be <- get_big_endian ;;
          d16 <- (if be =? 0 then read_le16 dev (int_add addr i)
                  else read_be16 dev (int_add addr i)) ;;
          printf (P_val 4 d16)) ;;
        printf P_nl
    | 32 =>
        for_lt (Z.to_nat len) 0 len (fun i => int_add i 4) (fun i =>
          (if Z.rem i 16 =? 0 then printf (P_row (int_add addr i))
           else ret tt) ;;
          be <- get_big_endian ;;
          d32 <- (if be =? 0 then read_le32 dev (int_add addr i)
                  else read_be32 dev (int_add addr i)) ;;
          printf (P_val 8 d32)) ;;
        printf P_nl
    | _ => printf P_syntax_error
    end ;;
    printf P_nl ;;
    ret 0.

Definition display_mem (dev : device_t) (cmd : string) : M Z :=
  match display_mem_args cmd with
  | None => printf P_syntax_error ;; ret 0
  | Some (width, addr, len) => display_mem_range dev width addr len
  end.

(** Lines 471-486 of [change_mem]: [width], [addr] and [d32]. *)
Definition change_mem_args (cmd : string) : option (Z * Z * Z) :=
  if Ascii.eqb (cget cmd 1) " " then
    let '(status, v) := sscanf cmd "%*c %x %x" in
    if negb (status =? 2) then None
    else Some (32, to_int (nth 0 v 0), nth 1 v 0)
  else
    let '(status, v) := sscanf cmd "%*c%d %x %x" in
    if negb (status =? 3) then None
    else Some (nth 0 v 32, to_int (nth 1 v 0), nth 2 v 0).

(** Lines 487-516 of [change_mem]. *)
Definition change_mem_at (dev : device_t) (width addr d32 : Z) : M Z :=
  if uint_gt addr (size dev) then
    printf (P_invalid_address (size dev)) ;; ret 0
  else
    match width with
    | 8 =>
        let d8 := to_uchar d32 in
        write_8 dev addr d8
    | 16 =>
        let d16 := to_ushort d32 in
        be <- get_big_endian ;;
        if be =? 0 then write_le16 dev addr d16
        else write_be16 dev addr d16
    | 32 =>
        be <- get_big_endian ;;
        if be =? 0 then write_le32 dev addr d32
        else write_be32 dev addr d32
    | _ => printf P_syntax_error
    end ;;
    ret 0.

Definition change_mem (dev : device_t) (cmd : string) : M Z :=
  match change_mem_args cmd with
  | None => printf P_syntax_error ;; ret 0
  | Some (width, addr, d32) => change_mem_at dev width addr d32
  end.

(** Lines 531-552 of [fill_mem]: [width], [addr], [d32], [len], [inc].
    [d32] has no initial value; [sscanf] assigns it whenever the status
    is accepted. *)
Definition fill_mem_args (cmd : string) : option (Z * Z * Z * Z * Z) :=
  if Ascii.eqb (cget cmd 1) " " then
    let '(status, v) := sscanf cmd "%*c %x %x %x %x" in
    if negb (status =? 3) && negb (status =? 4) then None
    else
      let inc := if status =? 3 then 1 else to_int (nth 3 v 0) in
      Some (32, to_int (nth 0 v 0), nth 1 v 0, to_int (nth 2 v 0), inc)
  else
    let '(status, v) := sscanf cmd "%*c%d %x %x %x %x" in
    if negb (status =? 3) && negb (status =? 4) then None
    else
      let inc := if status =? 4 then 1 else to_int (nth 4 v 0) in
      Some (nth 0 v 32, to_int (nth 1 v 0), nth 2 v 0,
            to_int (nth 3 v 0), inc).

(** Lines 553-593 of [fill_mem]. *)
Definition fill_mem_range (dev : device_t) (width addr d32 len inc : Z)
  : M Z :=
  if uint_gt addr (size dev) then
    printf (P_invalid_address (size dev)) ;; ret 0
  else
    (* Length is in bytes *)
    let len := if uint_gt (int_add addr len) (size dev)
               then (* Truncate *) to_int (size dev) else len in
    match width with
    | 8 =>
        for_lt (Z.to_nat len) 0 len (fun i => i + 1) (fun i =>
          let d8 := to_uchar (uint_add d32 (int_mul i inc)) in
          write_8 dev (int_add addr i) d8)
    | 16 =>
        for_lt (Z.to_nat (Z.quot len 2)) 0 (Z.quot len 2) (fun i => i + 1)
          (fun i =>
             let d16 := to_ushort (uint_add d32 (int_mul i inc)) in
             be <- get_big_endian ;;
             if be =? 0 then write_le16 dev (int_add addr (int_mul 2 i)) d16
             else write_be16 dev (int_add addr (int_mul 2 i)) d16)
    | 32 =>
        for_lt (Z.to_nat (Z.quot len 4)) 0 (Z.quot len 4) (fun i => i + 1)
          (fun i =>
             be <- get_big_endian ;;
             if be =? 0
             then write_le32 dev (int_add addr (int_mul 4 i))
                             (uint_add d32 (int_mul i inc))
             else write_be32 dev (int_add addr (int_mul 4 i))
                             (uint_add d32 (int_mul i inc)))
    | _ => printf P_syntax_error
    end ;;
    ret 0.

Definition fill_mem (dev : device_t) (cmd : string) : M Z :=
  match fill_mem_args cmd with
  | None => printf P_syntax_error ;; ret 0
  | Some (width, addr, d32, len, inc) =>
      fill_mem_range dev width addr d32 len inc
  end.

Definition change_endian (dev : device_t) (cmd : string) : M Z :=
  (* char endian = 0; e, el, eb *)
  let '(status, v) := sscanf cmd "%*c%c" in
  let endian := nth 0 v 0 in
  if status <? 0 then
    (* Display the current setting *)
    be <- get_big_endian ;;
    (if be =? 0 then printf P_little_endian else printf P_big_endian) ;;
    ret 0
  else if status =? 1 then
    (if endian =? char_code "b" then set_big_endian 1
     else if endian =? char_code "l" then set_big_endian 0
     else printf P_syntax_error) ;;
    ret 0
  else
    printf P_syntax_error ;;
    ret 0.

Definition process_command (dev : device_t) (cmd : string) : M Z :=
  if Ascii.eqb (cget cmd 0) NUL then ret 0
  else
    match cget cmd 0 with
    | "?"%char => display_help dev ;; ret 0
    | "c"%char | "C"%char => change_mem dev cmd
    | "d"%char | "D"%char => display_mem dev cmd
    | "e"%char | "E"%char => change_endian dev cmd
    | "f"%char | "F"%char => fill_mem dev cmd
    | "q"%char | "Q"%char => ret (-1)
    | _ => ret 0
    end.

(** [strlen] *)
Fixpoint strlen (s : string) : Z :=
  match s with
  | EmptyString => 0
  | String c r => if Ascii.eqb c NUL then 0 else 1 + strlen r
  end.

(** The two states of the loop of [parse_command]: still reading lines,
    or left through [break]. *)
Inductive loop_state : Type := Running | Terminated.

(** [parse_command], on the lines that [readline] returns ([None] is the
    NULL of Ctrl-D).  When the lines are used up the loop is waiting in
    [readline]. *)
Fixpoint parse_command (dev : device_t) (input : list (option string))
  : M loop_state :=
  match input with
  | [] => ret Running
  | None :: input' =>
      (* Ctrl-D check *)
      printf P_nl ;; parse_command dev input'
  | Some line :: input' =>
      (* Empty line check *)
      if strlen line =? 0 then parse_command dev input'
      else
        (* Process the line *)
        status <- process_command dev line ;;
        if status <? 0 then ret Terminated
        else parse_command dev input'
  end.

End Host.

(** ** The text that [printf] writes *)

Definition nl : string := String "010"%char EmptyString.

Definition hex_digit (d : Z) : ascii :=
  ascii_of_nat (Z.to_nat (if d <? 10 then 48 + d else 55 + d)).

(** [%.nX] of a value that has at most [n] hexadecimal digits. *)
Fixpoint hex_fixed (n : nat) (v : Z) (acc : string) : string :=
  match n with
  | O => acc
  | S n' => hex_fixed n' (v / 16) (String (hex_digit (v mod 16)) acc)
  end.

Definition help_text : string :=
  String.concat nl
    [ EmptyString;
      "  ?                         Help";
      "  d[width] addr len         Display memory starting from addr";
      "                            [width]";
      "                              8   - 8-bit access";
      "                              16  - 16-bit access";
      "                              32  - 32-bit access (default)";
      "  c[width] addr val         Change memory at addr to val";
      "  e                         Print the endian access mode";
      "  e[mode]                   Change the endian access mode";
      "                            [mode]";
      "                              b - big-endian (default)";
      "                              l - little-endian";
      "  f[width] addr val len inc  Fill memory";
      "                              addr - start address";
      "                              val  - start value";
      "                              len  - length (in bytes)";
      "                              inc  - increment (defaults to 1)";
      "  q                          Quit";
      EmptyString;
      "  Notes:";
      "    1. addr, len, and val are interpreted as hex values";
      "       addresses are always byte based";
      EmptyString;
      EmptyString ].

Definition render (p : printf_call) : string :=
  match p with
  | P_help => help_text
  | P_syntax_error => "Syntax error (use ? for help)" ++ nl
  | P_invalid_address max =>
      "Error: invalid address (maximum allowed is "
        ++ hex_fixed 8 (to_uint max) EmptyString ++ nl
  | P_row a => nl ++ hex_fixed 8 (to_uint a) EmptyString ++ ": "
  | P_val digits v => hex_fixed digits v EmptyString ++ " "
  | P_nl => nl
  | P_little_endian => "Endian mode: little-endian" ++ nl
  | P_big_endian => "Endian mode: big-endian" ++ nl
  end%string.

Definition rendered (out : list printf_call) : string :=
  String.concat EmptyString (map render out).

(** ** Observations used in the statements *)

(** The devices of the examples: the 1 MiB region of the README session and
    a region of 16 bytes. *)
Definition readme_device : device_t :=
  {| bar := 1; size := 1048576; offset := 0 |}.

Definition small_device : device_t := {| bar := 0; size := 16; offset := 0 |}.

(** The first character of a quit command. *)
Definition quit_letter (c : ascii) : Prop := c = "q"%char \/ c = "Q"%char.

Definition quit_line (line : option string) : Prop :=
  match line with
  | Some cmd => quit_letter (cget cmd 0)
  | None => False
  end.

(** [m] leaves the bus alone: no load, no store, no [msync]. *)
Definition no_access {A} (m : M A) (st : state) : Prop :=
  bus (exec m st) = bus st.

(** The calls of [printf] that [m] adds when run from [st]. *)
Definition printed {A} (m : M A) (st : state) : list printf_call :=
  skipn (List.length (stdout st)) (stdout (exec m st)).

(** [m] only appends to the output, and what it appends satisfies [P]. *)
Definition emits (P : printf_call -> Prop) {A} (m : M A) : Prop :=
  forall st, exists l, stdout (exec m st) = stdout st ++ l /\ Forall P l.

(** The message of the address check of display, change and fill. *)
Definition is_address_error (p : printf_call) : Prop :=
  match p with
  | P_invalid_address _ => True
  | _ => False
  end.

Definition no_address_error (p : printf_call) : Prop :=
  match p with
  | P_invalid_address _ => False
  | _ => True
  end.

Definition address_error_reported {A} (m : M A) (st : state) : Prop :=
  Exists is_address_error (printed m st).

(** The bytes of a unit on the bus, for the value of [big_endian]. *)
Definition wire_bytes (be : Z) (n : nat) (d : Z) : list Z :=
  if be =? 0 then le_bytes n d else rev (le_bytes n d).

(** The bus events of unit [i] of a fill. *)
Definition fill_unit (dev : device_t) (be width addr value inc i : Z)
  : list bus_event :=
  let n := Z.to_nat (width / 8) in
  let p := dev_addr dev + addr + width / 8 * i in
  [Store p (wire_bytes be n ((value + i * inc) mod 2 ^ width)); Msync p n].

(** ** Start-up *)

(** Line 252 of [main]: the offset of the region in its page, computed from
    the value [phys] read from the base address register of the BAR. *)
Definition region_offset (phys : Z) : Z :=
  Z.land phys 4294967280 mod 4096.

(** ** Relations between the state before and after a command *)

Definition is_load (e : bus_event) : Prop :=
  match e with
  | Load _ _ => True
  | _ => False
  end.

(** [m] takes every state to a state related to it by [R]. *)
Definition keeps (R : state -> state -> Prop) {A} (m : M A) : Prop :=
  forall st, R st (exec m st).

(** The memory and the endian mode are as before and the bus has seen
    nothing but loads. *)
Definition reads_only (st st' : state) : Prop :=
  mem st' = mem st /\ big_endian st' = big_endian st /\
  exists l, bus st' = bus st ++ l /\ Forall is_load l.

(** Neither the memory nor the bus has changed. *)
Definition device_untouched (st st' : state) : Prop :=
  mem st' = mem st /\ bus st' = bus st.

Definition same_mode (st st' : state) : Prop :=
  big_endian st' = big_endian st.

(** Every byte of the memory is a byte. *)
Definition bytes_ok (m : memory) : Prop := forall q, 0 <= m q < 256.

(** The value of the bytes of a unit, lowest address first, for the value
    of [big_endian]. *)
Definition unit_value (be : Z) (bs : list Z) : Z :=
  if be =? 0 then le_value bs else le_value (rev bs).

(** The letters that [process_command] knows. *)
Definition command_letters : list ascii :=
  ["?"; "c"; "C"; "d"; "D"; "e"; "E"; "f"; "F"; "q"; "Q"]%char.

Definition is_byte (b : Z) : Prop := 0 <= b < 256.

(** The state after a load of [n] bytes at [p], and after a store of the
    bytes [bs] at [p] with its [msync]. *)
Definition after_load (st : state) (p : Z) (n : nat) : state :=
  {| mem := mem st; bus := bus st ++ [Load p n];
     stdout := stdout st; big_endian := big_endian st |}.

Definition after_store (st : state) (p : Z) (bs : list Z) : state :=
  {| mem := store_bytes (mem st) p bs;
     bus := bus st ++ [Store p bs; Msync p (List.length bs)];
     stdout := stdout st; big_endian := big_endian st |}.

(** The calls of [printf] for the unit at byte index [i] of a display: the
    row label in front of every 16th byte, then the value of the unit. *)
Definition display_unit (be width addr : Z) (m : memory) (p i : Z)
  : list printf_call :=
  (if i mod 16 =? 0 then [P_row (addr + i)] else []) ++
  [P_val (Z.to_nat (width / 4))
     (unit_value be (load_bytes m (p + i) (Z.to_nat (width / 8))))].

(** The effect of the body of the loop of a display at byte index [i]: one
    load, the calls of [display_unit], nothing else. *)
Definition shown (dev : device_t) (addr i : Z) (st : state) (width : Z)
  (m : M unit) : Prop :=
  let p := dev_addr dev + addr in
  mem (exec m st) = mem st /\
  big_endian (exec m st) = big_endian st /\
  bus (exec m st) = bus st ++ [Load (p + i) (Z.to_nat (width / 8))] /\
  stdout (exec m st)
  = stdout st ++ display_unit (big_endian st) width addr (mem st) p i.

(** The text of [%.8X]: what display prints in front of a row. *)
Definition label (x : Z) : string := hex_fixed 8 x EmptyString.

(** The unread input after a number: the end of the line or a character
    that is not a hexadecimal digit. *)
Definition ends_number (s : string) : Prop :=
  match s with
  | EmptyString => True
  | String c _ => digit_of 16 c = None
  end.

(** * Properties *)

(** ** Runs on concrete input *)

Example sscanf_c32 : sscanf "c32 14 AA" "%*c%d %x %x" = (3, [32; 20; 170]).
Proof. reflexivity. Qed.

Example sscanf_d : sscanf "d 0 A" "%*c %x %x" = (2, [0; 10]).
Proof. reflexivity. Qed.

Example sscanf_e : sscanf "e" "%*c%c" = (EOF, []).
Proof. reflexivity. Qed.

Example change_args_c32 : change_mem_args "c32 14 AA" = Some (32, 20, 170).
Proof. reflexivity. Qed.

Example display_args_d : display_mem_args "d 0 A" = Some (32, 0, 10).
Proof. reflexivity. Qed.

Example process_xyz host dev st : process_command host dev "xyz" st = (0, st).
Proof. reflexivity. Qed.

Example readme_session :
  let st := exec (parse_command LITTLE_ENDIAN readme_device
                    [Some "c32 14 AA"; Some "c32 14 CC"; Some "d32 14 1"])
                 (initial_state (fun _ => 0)) in
  rendered (stdout st) = (nl ++ "00000014: 000000CC " ++ nl ++ nl)%string.
Proof. reflexivity. Qed.

(** ** The state monad *)

Lemma exec_bind {A B} (m : M A) (k : A -> M B) st :
  exec (bind m k) st = exec (k (eval m st)) (exec m st).
Proof. reflexivity. Qed.

Lemma eval_bind {A B} (m : M A) (k : A -> M B) st :
  eval (bind m k) st = eval (k (eval m st)) (exec m st).
Proof. reflexivity. Qed.

Lemma exec_ret {A} (a : A) st : exec (ret a) st = st.
Proof. reflexivity. Qed.

(** ** Every command returns 0 *)

Section Returns.
Variable host : byte_order.
Variable dev : device_t.

Lemma display_mem_returns cmd st : eval (display_mem host dev cmd) st = 0.
Proof.
  unfold display_mem. destruct (display_mem_args cmd) as [[[w a] l]|];
    [| reflexivity].
  unfold display_mem_range. destruct (uint_gt a (size dev)); reflexivity.
Qed.

Lemma change_mem_returns cmd st : eval (change_mem host dev cmd) st = 0.
Proof.
  unfold change_mem. destruct (change_mem_args cmd) as [[[w a] v]|];
    [| reflexivity].
  unfold change_mem_at. destruct (uint_gt a (size dev)); reflexivity.
Qed.

Lemma fill_mem_returns cmd st : eval (fill_mem host dev cmd) st = 0.
Proof.
  unfold fill_mem.
  destruct (fill_mem_args cmd) as [[[[[w a] v] l] i]|]; [| reflexivity].
  unfold fill_mem_range. destruct (uint_gt a (size dev)); reflexivity.
Qed.

Lemma change_endian_returns cmd st : eval (change_endian dev cmd) st = 0.
Proof.
  unfold change_endian. destruct (sscanf cmd "%*c%c") as [status v].
  destruct (status <? 0); [reflexivity |].
  destruct (status =? 1); reflexivity.
Qed.

End Returns.

Lemma process_command_status host dev cmd st :
  (eval (process_command host dev cmd) st = -1 /\ quit_letter (cget cmd 0))
  \/ (eval (process_command host dev cmd) st = 0 /\ ~ quit_letter (cget cmd 0)).
Proof.
  unfold process_command, quit_letter.
  destruct (cget cmd 0) as [[] [] [] [] [] [] [] []]; cbn [Ascii.eqb Bool.eqb NUL];
    try (right; split;
         [ first [ reflexivity | apply display_mem_returns
                 | apply change_mem_returns | apply fill_mem_returns
                 | apply change_endian_returns ]
         | intros [H | H]; discriminate H ]);
    (left; split; [reflexivity | auto]).
Qed.

(** ** The command loop *)

Lemma strlen_0_not_quit cmd : strlen cmd = 0 -> ~ quit_letter (cget cmd 0).
Proof.
  destruct cmd as [| c r]; cbn -[Z.add].
  - intros _ [H | H]; discriminate H.
  - destruct (Ascii.eqb_spec c NUL) as [-> | Hc].
    + intros _ [H | H]; discriminate H.
    + assert (0 <= strlen r).
      { clear. induction r as [| c r IH]; cbn -[Z.add]; [lia |].
        destruct (Ascii.eqb c NUL); lia. }
      lia.
Qed.

Lemma parse_command_terminated host dev input : forall st,
  eval (parse_command host dev input) st = Terminated <-> Exists quit_line input.
Proof.
  induction input as [| [line |] input IH]; intros st.
  - split; [discriminate | intros H; inversion H].
  - cbn [parse_command].
    destruct (Z.eqb_spec (strlen line) 0) as [H0 | H0].
    + rewrite IH. split; [auto |].
      intros H; inversion H; subst; [| assumption].
      exfalso. eapply strlen_0_not_quit; eauto.
    + rewrite eval_bind.
      destruct (process_command_status host dev line st) as [[-> Hq] | [-> Hq]];
        cbn [Z.ltb Z.compare].
      * split; [intros _; left; exact Hq | reflexivity].
      * rewrite IH. split; [auto |].
        intros H; inversion H; subst; [contradiction | assumption].
  - cbn [parse_command]. rewrite eval_bind, IH. split; [auto |].
    intros H; inversion H; subst; [contradiction | assumption].
Qed.

(** C8. The command loop is either Running or Terminated.  A line makes
    [process_command] return a negative status exactly when its first
    character is [q] or [Q]; every other line, whatever it does, returns 0.
    The loop of [parse_command] is left exactly when one of the lines read
    is such a quit line. *)
Theorem quit_is_the_only_exit (host : byte_order) (dev : device_t) :
  (forall s : loop_state, s = Running \/ s = Terminated) /\
  (forall cmd st,
      (eval (process_command host dev cmd) st < 0 <-> quit_letter (cget cmd 0))
      /\ (~ quit_letter (cget cmd 0) ->
          eval (process_command host dev cmd) st = 0)) /\
  (forall input st,
      eval (parse_command host dev input) st = Terminated
      <-> Exists quit_line input) /\
  (forall cmd st,
      eval (parse_command host dev [Some cmd]) st = Running
      <-> ~ quit_letter (cget cmd 0)).
Proof.
  split; [intros []; auto |].
  split.
  { intros cmd st.
    destruct (process_command_status host dev cmd st) as [[E Hq] | [E Hq]];
      rewrite E.
    - split; [split; [intros _; exact Hq | lia] | contradiction].
    - split; [split; [lia | contradiction] | reflexivity]. }
  split; [apply parse_command_terminated |].
  intros cmd st.
  pose proof (parse_command_terminated host dev [Some cmd] st) as H.
  destruct (eval (parse_command host dev [Some cmd]) st).
  - split; [| reflexivity]. intros _ Hq.
    assert (Running = Terminated) by (apply H; left; exact Hq). discriminate.
  - split; [discriminate |]. intros Hq. exfalso. apply Hq.
    assert (Exists quit_line [Some cmd]) as E by (apply H; reflexivity).
    inversion E as [? ? Hx | ? ? Hx]; subst; [exact Hx | inversion Hx].
Qed.

(** ** The endian command *)

Lemma char_code_inj c d : char_code c = char_code d -> c = d.
Proof.
  unfold char_code. intros H. apply Nat2Z.inj in H.
  rewrite <- (ascii_nat_embedding c), <- (ascii_nat_embedding d), H.
  reflexivity.
Qed.

Lemma sscanf_endian_suffix c0 c r :
  c0 <> NUL -> c <> NUL ->
  sscanf (String c0 (String c r)) "%*c%c" = (1, [char_code c]).
Proof.
  intros H0 H1. unfold sscanf.
  change (parse_format "%*c%c") with [D_skip_char; D_char].
  cbn [run at_end rest].
  apply Ascii.eqb_neq in H0. apply Ascii.eqb_neq in H1.
  rewrite H0, H1. reflexivity.
Qed.

(** C10. An endian command ([e] or [E]) whose second character is neither
    [b] nor [l] prints the syntax error and changes nothing else: the endian
    mode, the memory and the bus are as before, and the loop goes on.  At
    start-up the mode is little-endian: the flag is 0 and [e] reports
    little-endian. *)
Theorem bad_endian_suffix_is_syntax_error
  (host : byte_order) (dev : device_t) (c0 c : ascii) (r : string)
  (st : state) :
  c0 = "e"%char \/ c0 = "E"%char ->
  c <> NUL -> c <> "b"%char -> c <> "l"%char ->
  process_command host dev (String c0 (String c r)) st
  = (0, {| mem := mem st; bus := bus st;
           stdout := stdout st ++ [P_syntax_error];
           big_endian := big_endian st |})
  /\ (forall m, big_endian (initial_state m) = 0)
  /\ (forall m, stdout (exec (process_command host dev "e") (initial_state m))
                = [P_little_endian]).
Proof.
  intros H0 H1 Hb Hl. split; [| split; reflexivity].
  assert (c0 <> NUL) as Hn by (destruct H0; subst; discriminate).
  replace (process_command host dev (String c0 (String c r)))
    with (change_endian dev (String c0 (String c r)))
    by (destruct H0; subst; reflexivity).
  unfold change_endian. rewrite (sscanf_endian_suffix c0 c r Hn H1).
  cbn [Z.ltb Z.eqb Z.compare Pos.eqb nth].
  destruct (Z.eqb_spec (char_code c) (char_code "b")) as [E | _];
    [apply char_code_inj in E; contradiction |].
  destruct (Z.eqb_spec (char_code c) (char_code "l")) as [E | _];
    [apply char_code_inj in E; contradiction |].
  reflexivity.
Qed.

Lemma bad_endian_suffix_witness :
  process_command LITTLE_ENDIAN readme_device "ex" (initial_state (fun _ => 0))
  = (0, {| mem := fun _ => 0; bus := []; stdout := [P_syntax_error];
           big_endian := 0 |}).
Proof.
  refine (proj1 (bad_endian_suffix_is_syntax_error LITTLE_ENDIAN readme_device
                   "e" "x" EmptyString (initial_state (fun _ => 0)) _ _ _ _)).
  - left; reflexivity.
  - discriminate.
  - discriminate.
  - discriminate.
Defined.

(** ** The increment of a fill line *)

(** C3. Without a width the increment is optional: three numbers give
    increment 1 and a fourth number is the increment.  With a width the
    count of [sscanf] includes the width, yet it is still compared with 3
    and 4: a line with an increment counts 5 and is refused as a syntax
    error, and a line without a length counts 3 and is accepted. *)
Theorem fill_increment_default :
  fill_mem_args "f 0 a5 10" = Some (32, 0, 165, 16, 1) /\
  fill_mem_args "f 0 a5 10 2" = Some (32, 0, 165, 16, 2) /\
  fill_mem_args "f32 0 a5 10" = Some (32, 0, 165, 16, 1) /\
  sscanf "f32 0 a5 10 2" "%*c%d %x %x %x %x" = (5, [32; 0; 165; 16; 2]) /\
  fill_mem_args "f32 0 a5 10 2" = None /\
  fill_mem_args "f32 0 a5" = Some (32, 0, 165, 0, 0) /\
  (forall host dev st,
      fill_mem host dev "f32 0 a5 10 2" st = (0, exec (printf P_syntax_error) st)).
Proof. repeat split. Qed.

(** ** Truncation of the length in [display_mem] *)

(** C1. On a region of 16 bytes, [d8 8 10] asks for 16 bytes from address 8.
    The length is replaced by the size of the region, not by what is left
    of it: 16 bytes are read, at addresses 8 to 23, where [size - addr]
    is 8. *)
Theorem display_truncates_to_size (host : byte_order) :
  let st := exec (display_mem host small_device "d8 8 10")
                 (initial_state (fun _ => 0)) in
  display_mem_args "d8 8 10" = Some (8, 8, 16) /\
  bus st = map (fun k => Load (8 + Z.of_nat k) 1) (seq 0 16) /\
  size small_device - 8 = 8.
Proof. destruct host; repeat split. Qed.

(** ** The access functions check nothing *)

(** On a region of 16 bytes, [read_8] and [write_8] at address 16 reach the
    bus, and the write changes the byte behind the region. *)
Lemma access_beyond_the_region :
  let st := initial_state (fun _ => 0) in
  16 + 1 > size small_device /\
  ~ no_access (read_8 LITTLE_ENDIAN small_device 16) st /\
  ~ no_access (write_8 LITTLE_ENDIAN small_device 16 255) st /\
  mem (exec (write_8 LITTLE_ENDIAN small_device 16 255) st) 16 = 255.
Proof.
  cbv zeta. unfold no_access.
  split; [reflexivity |]. repeat split; cbn; discriminate.
Qed.

(** C2, as the code has it.  The access functions have no bound check and
    no error result: at every address, inside the region or not, a read is
    one load and a write is one store followed by [msync], of the width of
    the function at [dev->addr + addr]. *)
Theorem access_functions_are_unchecked
  (host : byte_order) (dev : device_t) (addr data : Z) (st : state) :
  let p := dev_addr dev + to_uint addr in
  bus (exec (read_8 host dev addr) st) = bus st ++ [Load p 1] /\
  bus (exec (read_le16 host dev addr) st) = bus st ++ [Load p 2] /\
  bus (exec (read_be16 host dev addr) st) = bus st ++ [Load p 2] /\
  bus (exec (read_le32 host dev addr) st) = bus st ++ [Load p 4] /\
  bus (exec (read_be32 host dev addr) st) = bus st ++ [Load p 4] /\
  (exists bs, List.length bs = 1%nat /\
     bus (exec (write_8 host dev addr data) st)
     = bus st ++ [Store p bs; Msync p 1]) /\
  (exists bs, List.length bs = 2%nat /\
     bus (exec (write_le16 host dev addr data) st)
     = bus st ++ [Store p bs; Msync p 2]) /\
  (exists bs, List.length bs = 2%nat /\
     bus (exec (write_be16 host dev addr data) st)
     = bus st ++ [Store p bs; Msync p 2]) /\
  (exists bs, List.length bs = 4%nat /\
     bus (exec (write_le32 host dev addr data) st)
     = bus st ++ [Store p bs; Msync p 4]) /\
  (exists bs, List.length bs = 4%nat /\
     bus (exec (write_be32 host dev addr data) st)
     = bus st ++ [Store p bs; Msync p 4]).
Proof.
  cbv zeta.
  repeat (split; [reflexivity |]).
  repeat split; eexists; (split; [| cbn; rewrite <- app_assoc; reflexivity]);
    destruct host; reflexivity.
Qed.

(** ** Bytes, byte swaps and the wire format *)

Lemma testbit_mask lo n i :
  0 <= lo -> 0 <= n ->
  Z.testbit (Z.shiftl (Z.ones n) lo) i = (lo <=? i) && (i <? lo + n).
Proof.
  intros Hlo Hn.
  destruct (Z.lt_ge_cases i lo) as [H | H].
  - replace (lo <=? i) with false by (symmetry; apply Z.leb_gt; lia). cbn.
    destruct (Z.lt_ge_cases i 0); [apply Z.testbit_neg_r; lia |].
    rewrite Z.shiftl_spec by lia. apply Z.testbit_neg_r. lia.
  - replace (lo <=? i) with true by (symmetry; apply Z.leb_le; lia). cbn.
    rewrite Z.shiftl_spec, Z.testbit_ones_nonneg by lia.
    destruct (Z.ltb_spec (i - lo) n), (Z.ltb_spec i (lo + n));
      lia || reflexivity.
Qed.

Ltac bit_masks :=
  change 255 with (Z.shiftl (Z.ones 8) 0);
  change 65280 with (Z.shiftl (Z.ones 8) 8);
  change 16711680 with (Z.shiftl (Z.ones 8) 16);
  change 4278190080 with (Z.shiftl (Z.ones 8) 24).

Ltac bit_cases :=
  repeat match goal with
    | |- context [?a <=? ?b] => destruct (Z.leb_spec a b); try lia
    | |- context [?a <? ?b] => destruct (Z.ltb_spec a b); try lia
    end;
  rewrite ?andb_true_r, ?andb_false_r, ?orb_false_r, ?orb_true_r,
    ?andb_true_l, ?andb_false_l, ?orb_false_l, ?orb_true_l;
  try reflexivity;
  try (f_equal; lia).

Ltac bit_eq :=
  apply Z.bits_inj'; intros i Hi; bit_masks;
  repeat first
    [ rewrite Z.land_spec | rewrite Z.lor_spec
    | rewrite testbit_mask by lia
    | rewrite Z.shiftr_spec by lia | rewrite Z.shiftl_spec by lia ];
  bit_cases.

Lemma le_bytes_bswap_16 x : le_bytes 2 (bswap_16 x) = rev (le_bytes 2 x).
Proof.
  unfold bswap_16. cbn [le_bytes rev app].
  f_equal; [| f_equal]; bit_eq.
Qed.

Lemma le_bytes_bswap_32 x : le_bytes 4 (bswap_32 x) = rev (le_bytes 4 x).
Proof.
  unfold bswap_32. cbn [le_bytes rev app].
  f_equal; [| f_equal; [| f_equal; [| f_equal]]]; bit_eq.
Qed.

Lemma bswap_16_range x : bswap_16 x mod 2 ^ 16 = bswap_16 x.
Proof.
  rewrite <- Z.land_ones by lia. unfold bswap_16.
  change (Z.ones 16) with (Z.shiftl (Z.ones 16) 0). bit_eq.
Qed.

Lemma bswap_32_range x : bswap_32 x mod 2 ^ 32 = bswap_32 x.
Proof.
  rewrite <- Z.land_ones by lia. unfold bswap_32.
  change (Z.ones 32) with (Z.shiftl (Z.ones 32) 0). bit_eq.
Qed.

Lemma le_value_le_bytes n : forall v,
  le_value (le_bytes n v) = v mod 2 ^ (8 * Z.of_nat n).
Proof.
  induction n as [| n IH]; intros v.
  - cbn. rewrite Z.mod_1_r. reflexivity.
  - cbn [le_bytes le_value]. rewrite IH.
    change 255 with (Z.ones 8). rewrite Z.land_ones, Z.shiftr_div_pow2 by lia.
    replace (8 * Z.of_nat (S n)) with (8 + 8 * Z.of_nat n) by lia.
    rewrite Z.pow_add_r by lia.
    rewrite Z.rem_mul_r by lia. reflexivity.
Qed.

Lemma length_le_bytes n : forall v, List.length (le_bytes n v) = n.
Proof. induction n; intros v; cbn; [| rewrite IHn]; reflexivity. Qed.

Lemma store_bytes_below bs : forall m p q,
  q < p -> store_bytes m p bs q = m q.
Proof.
  induction bs as [| b bs IH]; intros m p q H; cbn; [reflexivity |].
  rewrite IH by lia. unfold poke.
  destruct (Z.eqb_spec q p); [lia | reflexivity].
Qed.

Lemma load_store_bytes bs : forall m p,
  load_bytes (store_bytes m p bs) p (List.length bs) = bs.
Proof.
  induction bs as [| b bs IH]; intros m p; cbn; [reflexivity |].
  rewrite IH, store_bytes_below by lia.
  unfold poke. rewrite Z.eqb_refl. reflexivity.
Qed.

Lemma bswap_16_involutive x : bswap_16 (bswap_16 x) = x mod 2 ^ 16.
Proof.
  rewrite <- bswap_16_range.
  change (2 ^ 16) with (2 ^ (8 * Z.of_nat 2)).
  rewrite <- !le_value_le_bytes, !le_bytes_bswap_16, rev_involutive.
  reflexivity.
Qed.

Lemma bswap_32_involutive x : bswap_32 (bswap_32 x) = x mod 2 ^ 32.
Proof.
  rewrite <- bswap_32_range.
  change (2 ^ 32) with (2 ^ (8 * Z.of_nat 4)).
  rewrite <- !le_value_le_bytes, !le_bytes_bswap_32, rev_involutive.
  reflexivity.
Qed.

(** What a store leaves in memory is what a load at the same place finds. *)
Lemma native_value_bytes host n v :
  native_value host (native_bytes host n v) = v mod 2 ^ (8 * Z.of_nat n).
Proof.
  destruct host; cbn; rewrite ?rev_involutive; apply le_value_le_bytes.
Qed.

Lemma load_after_store host n p v st :
  eval (volatile_load host n p)
       (exec (volatile_store host n p v ;; msync p n) st)
  = v mod 2 ^ (8 * Z.of_nat n).
Proof.
  rewrite <- (native_value_bytes host n v).
  unfold eval, exec, bind, volatile_load, volatile_store, msync.
  cbn [fst snd mem]. f_equal.
  assert (List.length (native_bytes host n v) = n) as E.
  { destruct host; cbn [native_bytes]; rewrite ?length_rev;
      apply length_le_bytes. }
  rewrite <- E at 2. apply load_store_bytes.
Qed.

(** The bytes that each mode puts down, whatever the host. *)
Lemma wire_le16 host d :
  native_bytes host 2
    (if negb (byte_order_eqb host LITTLE_ENDIAN) then bswap_16 d else d)
  = le_bytes 2 d.
Proof.
  destruct host; cbn [byte_order_eqb negb native_bytes]; [reflexivity |].
  rewrite le_bytes_bswap_16. apply rev_involutive.
Qed.

Lemma wire_be16 host d :
  native_bytes host 2
    (if byte_order_eqb host LITTLE_ENDIAN then bswap_16 d else d)
  = rev (le_bytes 2 d).
Proof.
  destruct host; cbn [byte_order_eqb native_bytes]; [| reflexivity].
  apply le_bytes_bswap_16.
Qed.

Lemma wire_le32 host d :
  native_bytes host 4
    (if negb (byte_order_eqb host LITTLE_ENDIAN) then bswap_32 d else d)
  = le_bytes 4 d.
Proof.
  destruct host; cbn [byte_order_eqb negb native_bytes]; [reflexivity |].
  rewrite le_bytes_bswap_32. apply rev_involutive.
Qed.

Lemma wire_be32 host d :
  native_bytes host 4
    (if byte_order_eqb host LITTLE_ENDIAN then bswap_32 d else d)
  = rev (le_bytes 4 d).
Proof.
  destruct host; cbn [byte_order_eqb native_bytes]; [| reflexivity].
  apply le_bytes_bswap_32.
Qed.

(** ** Reading back what was written *)

Section RoundTrip.
Variable host : byte_order.
Variable dev : device_t.
Variables addr v : Z.
Variable st : state.

Lemma read_8_write_8 :
  eval (read_8 host dev addr) (exec (write_8 host dev addr v) st)
  = v mod 2 ^ 8.
Proof.
  unfold read_8, write_8. cbv zeta. rewrite load_after_store.
  unfold to_uchar. apply Z.mod_mod. lia.
Qed.

Lemma read_le16_write_le16 :
  eval (read_le16 host dev addr) (exec (write_le16 host dev addr v) st)
  = v mod 2 ^ 16.
Proof.
  unfold read_le16, write_le16. cbv zeta.
  rewrite eval_bind, load_after_store.
  change (2 ^ (8 * Z.of_nat 2)) with (2 ^ 16). unfold to_ushort, ret, eval.
  cbn [fst]. destruct host; cbn [byte_order_eqb negb].
  - rewrite !Z.mod_mod by lia. reflexivity.
  - rewrite !bswap_16_range, bswap_16_involutive, !Z.mod_mod by lia.
    reflexivity.
Qed.

Lemma read_be16_write_be16 :
  eval (read_be16 host dev addr) (exec (write_be16 host dev addr v) st)
  = v mod 2 ^ 16.
Proof.
  unfold read_be16, write_be16. cbv zeta.
  rewrite eval_bind, load_after_store.
  change (2 ^ (8 * Z.of_nat 2)) with (2 ^ 16). unfold to_ushort, ret, eval.
  cbn [fst]. destruct host; cbn [byte_order_eqb negb].
  - rewrite !bswap_16_range, bswap_16_involutive, !Z.mod_mod by lia.
    reflexivity.
  - rewrite !Z.mod_mod by lia. reflexivity.
Qed.

Lemma read_le32_write_le32 :
  eval (read_le32 host dev addr) (exec (write_le32 host dev addr v) st)
  = v mod 2 ^ 32.
Proof.
  unfold read_le32, write_le32. cbv zeta.
  rewrite eval_bind, load_after_store.
  change (2 ^ (8 * Z.of_nat 4)) with (2 ^ 32). unfold to_uint, ret, eval.
  cbn [fst]. destruct host; cbn [byte_order_eqb negb].
  - rewrite !Z.mod_mod by lia. reflexivity.
  - rewrite !bswap_32_range, bswap_32_involutive, !Z.mod_mod by lia.
    reflexivity.
Qed.

Lemma read_be32_write_be32 :
  eval (read_be32 host dev addr) (exec (write_be32 host dev addr v) st)
  = v mod 2 ^ 32.
Proof.
  unfold read_be32, write_be32. cbv zeta.
  rewrite eval_bind, load_after_store.
  change (2 ^ (8 * Z.of_nat 4)) with (2 ^ 32). unfold to_uint, ret, eval.
  cbn [fst]. destruct host; cbn [byte_order_eqb negb].
  - rewrite !bswap_32_range, bswap_32_involutive, !Z.mod_mod by lia.
    reflexivity.
  - rewrite !Z.mod_mod by lia. reflexivity.
Qed.

End RoundTrip.

(** C4. Inside the region, a read that follows a write of [v] at the same
    address with the same width returns [v] truncated to the width, with
    the little-endian pair of access functions and with the big-endian
    pair, on a host of either byte order. *)
Theorem read_after_write
  (host : byte_order) (dev : device_t) (width addr v : Z) (st : state) :
  0 <= addr -> addr + width / 8 <= size dev -> size dev < 2 ^ 32 ->
  (width = 8 ->
   eval (read_8 host dev addr) (exec (write_8 host dev addr v) st)
   = v mod 2 ^ 8) /\
  (width = 16 ->
   eval (read_le16 host dev addr) (exec (write_le16 host dev addr v) st)
   = v mod 2 ^ 16 /\
   eval (read_be16 host dev addr) (exec (write_be16 host dev addr v) st)
   = v mod 2 ^ 16) /\
  (width = 32 ->
   eval (read_le32 host dev addr) (exec (write_le32 host dev addr v) st)
   = v mod 2 ^ 32 /\
   eval (read_be32 host dev addr) (exec (write_be32 host dev addr v) st)
   = v mod 2 ^ 32).
Proof.
  intros _ _ _.
  split; [intros _; apply read_8_write_8 |].
  split; intros _; split.
  - apply read_le16_write_le16.
  - apply read_be16_write_be16.
  - apply read_le32_write_le32.
  - apply read_be32_write_be32.
Qed.

Lemma read_after_write_witness :
  eval (read_be32 LITTLE_ENDIAN readme_device 20)
       (exec (write_be32 LITTLE_ENDIAN readme_device 20 (2 ^ 32 + 204))
             (initial_state (fun _ => 0)))
  = 204.
Proof.
  refine (proj2 (proj2 (proj2 (read_after_write LITTLE_ENDIAN readme_device
            32 20 (2 ^ 32 + 204) (initial_state (fun _ => 0)) _ _ _))
            eq_refl)).
  - lia.
  - cbn. lia.
  - cbn. lia.
Defined.

(** ** The bytes of a 16-bit write *)

Lemma process_eb host dev st :
  exec (process_command host dev "eb") st = exec (set_big_endian 1) st.
Proof. reflexivity. Qed.

Lemma process_el host dev st :
  exec (process_command host dev "el") st = exec (set_big_endian 0) st.
Proof. reflexivity. Qed.

Lemma process_c16 host dev st :
  process_command host dev "c16 4 196E" st
  = change_mem_at host dev 16 4 6510 st.
Proof. reflexivity. Qed.

(** C5. After [eb], the line [c16 4 196E] leaves the bytes 0x19, 0x6E at
    addresses 4 and 5; after [el] it leaves 0x6E, 0x19; this on a host of
    either byte order.  For every value the big-endian function stores the
    most significant byte first and the little-endian one the least
    significant byte first; the value is byte-swapped before the native
    store exactly when the host order is not the order of the function. *)
Theorem endian_mode_byte_order (host : byte_order) (dev : device_t) (st : state) :
  uint_gt 4 (size dev) = false ->
  let big := exec (process_command host dev "c16 4 196E")
                  (exec (process_command host dev "eb") st) in
  let little := exec (process_command host dev "c16 4 196E")
                     (exec (process_command host dev "el") st) in
  load_bytes (mem big) (dev_addr dev + 4) 2 = [25; 110] /\
  load_bytes (mem little) (dev_addr dev + 4) 2 = [110; 25] /\
  (forall addr v st',
      let p := dev_addr dev + to_uint addr in
      let d := to_ushort v in
      bus (exec (write_be16 host dev addr v) st')
      = bus st' ++ [Store p [Z.land (Z.shiftr d 8) 255; Z.land d 255];
                    Msync p 2] /\
      bus (exec (write_le16 host dev addr v) st')
      = bus st' ++ [Store p [Z.land d 255; Z.land (Z.shiftr d 8) 255];
                    Msync p 2] /\
      bus (exec (write_be16 host dev addr v) st')
      = bus st' ++ [Store p (native_bytes host 2
                       (match host with
                        | BIG_ENDIAN => d
                        | LITTLE_ENDIAN => bswap_16 d
                        end));
                    Msync p 2] /\
      bus (exec (write_le16 host dev addr v) st')
      = bus st' ++ [Store p (native_bytes host 2
                       (match host with
                        | LITTLE_ENDIAN => d
                        | BIG_ENDIAN => bswap_16 d
                        end));
                    Msync p 2]).
Proof.
  intros Hsize. cbv zeta. rewrite process_eb, process_el.
  unfold exec at 1 3. rewrite !process_c16.
  unfold change_mem_at. rewrite Hsize.
  split; [| split].
  - unfold write_be16. cbv zeta.
    cbn [bind get_big_endian set_big_endian exec fst snd big_endian Z.eqb
         volatile_store msync mem ret].
    rewrite wire_be16. apply (load_store_bytes [25; 110]).
  - unfold write_le16. cbv zeta.
    cbn [bind get_big_endian set_big_endian exec fst snd big_endian Z.eqb
         volatile_store msync mem ret].
    rewrite wire_le16. apply (load_store_bytes [110; 25]).
  - intros addr v st'.
    unfold write_be16, write_le16. cbv zeta.
    cbn [bind exec fst snd volatile_store msync bus].
    rewrite <- !app_assoc. cbn [app].
    rewrite wire_be16, wire_le16.
    repeat split; destruct host; cbn [native_bytes];
      rewrite ?le_bytes_bswap_16, ?rev_involutive; reflexivity.
Qed.

Lemma endian_mode_byte_order_witness :
  let st := initial_state (fun _ => 0) in
  load_bytes
    (mem (exec (process_command LITTLE_ENDIAN readme_device "c16 4 196E")
               (exec (process_command LITTLE_ENDIAN readme_device "eb") st)))
    4 2 = [25; 110].
Proof.
  exact (proj1 (endian_mode_byte_order LITTLE_ENDIAN readme_device
                  (initial_state (fun _ => 0)) eq_refl)).
Defined.

Lemma exec_get_big_endian {A} (k : Z -> M A) st :
  exec (bind get_big_endian k) st = exec (k (big_endian st)) st.
Proof. reflexivity. Qed.

(** ** The bus events of the write functions *)

Section WriteBus.
Variable host : byte_order.
Variable dev : device_t.
Variables addr d : Z.
Variable st : state.
Let p := dev_addr dev + to_uint addr.

Lemma write_8_bus :
  bus (exec (write_8 host dev addr d) st)
  = bus st ++ [Store p (le_bytes 1 (to_uchar d)); Msync p 1].
Proof.
  unfold write_8. cbv zeta.
  cbn [bind exec fst snd volatile_store msync bus].
  rewrite <- app_assoc. destruct host; reflexivity.
Qed.

Lemma write_le16_bus :
  bus (exec (write_le16 host dev addr d) st)
  = bus st ++ [Store p (le_bytes 2 (to_ushort d)); Msync p 2].
Proof.
  unfold write_le16. cbv zeta.
  cbn [bind exec fst snd volatile_store msync bus].
  rewrite <- app_assoc, wire_le16. reflexivity.
Qed.

Lemma write_be16_bus :
  bus (exec (write_be16 host dev addr d) st)
  = bus st ++ [Store p (rev (le_bytes 2 (to_ushort d))); Msync p 2].
Proof.
  unfold write_be16. cbv zeta.
  cbn [bind exec fst snd volatile_store msync bus].
  rewrite <- app_assoc, wire_be16. reflexivity.
Qed.

Lemma write_le32_bus :
  bus (exec (write_le32 host dev addr d) st)
  = bus st ++ [Store p (le_bytes 4 (to_uint d)); Msync p 4].
Proof.
  unfold write_le32. cbv zeta.
  cbn [bind exec fst snd volatile_store msync bus].
  rewrite <- app_assoc, wire_le32. reflexivity.
Qed.

Lemma write_be32_bus :
  bus (exec (write_be32 host dev addr d) st)
  = bus st ++ [Store p (rev (le_bytes 4 (to_uint d))); Msync p 4].
Proof.
  unfold write_be32. cbv zeta.
  cbn [bind exec fst snd volatile_store msync bus].
  rewrite <- app_assoc, wire_be32. reflexivity.
Qed.

End WriteBus.

(** ** What a command prints *)

Lemma printed_app {A} (m : M A) st l :
  stdout (exec m st) = stdout st ++ l -> printed m st = l.
Proof.
  intros E. unfold printed. rewrite E, skipn_app, skipn_all, Nat.sub_diag.
  reflexivity.
Qed.

Section Emits.
Variable P : printf_call -> Prop.

Lemma emits_silent {A} (m : M A) :
  (forall st, stdout (exec m st) = stdout st) -> emits P m.
Proof.
  intros H st. exists []. rewrite app_nil_r. split; [apply H | constructor].
Qed.

Lemma emits_ret {A} (a : A) : emits P (ret a).
Proof. apply emits_silent. reflexivity. Qed.

Lemma emits_printf p : P p -> emits P (printf p).
Proof. intros Hp st. exists [p]. split; [reflexivity | auto]. Qed.

Lemma emits_bind {A B} (m : M A) (k : A -> M B) :
  emits P m -> (forall a, emits P (k a)) -> emits P (bind m k).
Proof.
  intros Hm Hk st. rewrite exec_bind.
  destruct (Hm st) as [l1 [E1 F1]].
  destruct (Hk (eval m st) (exec m st)) as [l2 [E2 F2]].
  exists (l1 ++ l2). rewrite E2, E1, app_assoc.
  split; [reflexivity | apply Forall_app; auto].
Qed.

Lemma emits_if {A} (b : bool) (m1 m2 : M A) :
  emits P m1 -> emits P m2 -> emits P (if b then m1 else m2).
Proof. destruct b; auto. Qed.

Lemma emits_for_lt next body bound :
  (forall i, emits P (body i)) ->
  forall fuel i, emits P (for_lt fuel i bound next body).
Proof.
  intros Hb. induction fuel as [| fuel IH]; intros i; cbn [for_lt].
  - apply emits_ret.
  - apply emits_if; [| apply emits_ret].
    apply emits_bind; [apply Hb | intros _; apply IH].
Qed.

Variable host : byte_order.
Variable dev : device_t.

Lemma emits_read_8 a : emits P (read_8 host dev a).
Proof. apply emits_silent. reflexivity. Qed.
Lemma emits_read_le16 a : emits P (read_le16 host dev a).
Proof. apply emits_silent. reflexivity. Qed.
Lemma emits_read_be16 a : emits P (read_be16 host dev a).
Proof. apply emits_silent. reflexivity. Qed.
Lemma emits_read_le32 a : emits P (read_le32 host dev a).
Proof. apply emits_silent. reflexivity. Qed.
Lemma emits_read_be32 a : emits P (read_be32 host dev a).
Proof. apply emits_silent. reflexivity. Qed.
Lemma emits_write_8 a d : emits P (write_8 host dev a d).
Proof. apply emits_silent. reflexivity. Qed.
Lemma emits_write_le16 a d : emits P (write_le16 host dev a d).
Proof. apply emits_silent. reflexivity. Qed.
Lemma emits_write_be16 a d : emits P (write_be16 host dev a d).
Proof. apply emits_silent. reflexivity. Qed.
Lemma emits_write_le32 a d : emits P (write_le32 host dev a d).
Proof. apply emits_silent. reflexivity. Qed.
Lemma emits_write_be32 a d : emits P (write_be32 host dev a d).
Proof. apply emits_silent. reflexivity. Qed.
Lemma emits_get_big_endian : emits P get_big_endian.
Proof. apply emits_silent. reflexivity. Qed.

End Emits.

Create HintDb emits.
#[local] Hint Resolve emits_ret emits_bind emits_if emits_for_lt
  emits_read_8 emits_read_le16 emits_read_be16 emits_read_le32
  emits_read_be32 emits_write_8 emits_write_le16 emits_write_be16
  emits_write_le32 emits_write_be32 emits_get_big_endian : emits.

Ltac emits_step :=
  lazymatch goal with
  | |- emits _ (bind _ _) => apply emits_bind; [| intros ?]
  | |- emits _ (if _ then _ else _) => apply emits_if
  | |- emits _ (for_lt _ _ _ _ _) => apply emits_for_lt; intros ?
  | |- emits _ (printf _) => apply emits_printf; exact I
  | |- emits _ _ => solve [auto with emits]
  end.

(** The [default] label of a [switch (width)]. *)
Lemma switch_width_default {A} (w : Z) (w8 w16 w32 other : A) :
  w <> 8 -> w <> 16 -> w <> 32 ->
  match w with
  | 8 => w8
  | 16 => w16
  | 32 => w32
  | _ => other
  end = other.
Proof.
  intros H8 H16 H32.
  destruct w as [| p | p]; try reflexivity.
  do 6 (try destruct p as [p | p |]); try reflexivity; contradiction.
Qed.

Lemma width_cases (Q : Z -> Prop) :
  Q 8 -> Q 16 -> Q 32 ->
  (forall w, w <> 8 -> w <> 16 -> w <> 32 -> Q w) -> forall w, Q w.
Proof.
  intros H8 H16 H32 Ho w.
  destruct (Z.eq_dec w 8) as [-> | ?]; [assumption |].
  destruct (Z.eq_dec w 16) as [-> | ?]; [assumption |].
  destruct (Z.eq_dec w 32) as [-> | ?]; [assumption |].
  apply Ho; assumption.
Qed.


(** ** The address check of the three commands *)

Section AddressCheck.
Variable host : byte_order.
Variable dev : device_t.

Lemma display_mem_range_emits width addr len :
  uint_gt addr (size dev) = false ->
  emits no_address_error
    (display_mem_range host dev width addr len).
Proof.
  intros H. unfold display_mem_range. rewrite H.
  pattern width. apply width_cases;
    [ | | | intros w H8 H16 H32; rewrite switch_width_default by assumption ];
    repeat emits_step.
Qed.

Lemma change_mem_at_emits width addr d32 :
  uint_gt addr (size dev) = false ->
  emits no_address_error (change_mem_at host dev width addr d32).
Proof.
  intros H. unfold change_mem_at. rewrite H.
  pattern width. apply width_cases;
    [ | | | intros w H8 H16 H32; rewrite switch_width_default by assumption ];
    repeat emits_step.
Qed.

Lemma fill_mem_range_emits width addr d32 len inc :
  uint_gt addr (size dev) = false ->
  emits no_address_error
    (fill_mem_range host dev width addr d32 len inc).
Proof.
  intros H. unfold fill_mem_range. rewrite H.
  pattern width. apply width_cases;
    [ | | | intros w H8 H16 H32; rewrite switch_width_default by assumption ];
    repeat emits_step.
Qed.

Lemma reported_iff {A} (m m' : M A) addr :
  (uint_gt addr (size dev) = true ->
   forall st, stdout (exec m st)
              = stdout st ++ [P_invalid_address (size dev)]) ->
  (uint_gt addr (size dev) = false -> emits no_address_error m) ->
  forall st,
    address_error_reported m st <-> to_uint (size dev) < to_uint addr.
Proof.
  intros Ht Hf st. unfold address_error_reported.
  destruct (uint_gt addr (size dev)) eqn:E.
  - rewrite (printed_app m st _ (Ht eq_refl st)).
    split; [intros _; apply Z.ltb_lt; exact E |].
    intros _. left. exact I.
  - destruct (Hf eq_refl st) as [l [El Fl]].
    rewrite (printed_app m st _ El).
    apply Z.ltb_ge in E. split; [| lia].
    intros Hx. exfalso. apply Exists_exists in Hx.
    destruct Hx as [p [Hin Hp]].
    rewrite Forall_forall in Fl. specialize (Fl p Hin).
    destruct p; contradiction.
Qed.

Lemma display_reported width addr len st :
  address_error_reported (display_mem_range host dev width addr len) st
  <-> to_uint (size dev) < to_uint addr.
Proof.
  apply (reported_iff _ (ret 0)); [| apply display_mem_range_emits].
  intros H st'. unfold display_mem_range. rewrite H. reflexivity.
Qed.

Lemma change_reported width addr d32 st :
  address_error_reported (change_mem_at host dev width addr d32) st
  <-> to_uint (size dev) < to_uint addr.
Proof.
  apply (reported_iff _ (ret 0)); [| apply change_mem_at_emits].
  intros H st'. unfold change_mem_at. rewrite H. reflexivity.
Qed.

Lemma fill_reported width addr d32 len inc st :
  address_error_reported (fill_mem_range host dev width addr d32 len inc) st
  <-> to_uint (size dev) < to_uint addr.
Proof.
  apply (reported_iff _ (ret 0)); [| apply fill_mem_range_emits].
  intros H st'. unfold fill_mem_range. rewrite H. reflexivity.
Qed.

(** A change whose start address passes the check is one store. *)
Lemma change_mem_at_in_range width addr d32 st :
  uint_gt addr (size dev) = false ->
  width = 8 \/ width = 16 \/ width = 32 ->
  let st' := exec (change_mem_at host dev width addr d32) st in
  let p := dev_addr dev + to_uint addr in
  let n := Z.to_nat (width / 8) in
  stdout st' = stdout st /\
  exists bs, List.length bs = n /\ bus st' = bus st ++ [Store p bs; Msync p n].
Proof.
  intros H Hw. cbv zeta. unfold change_mem_at. rewrite H.
  destruct Hw as [-> | [-> | ->]].
  - split; [reflexivity |].
    rewrite exec_bind, exec_ret, write_8_bus.
    eexists. split; [| reflexivity]. reflexivity.
  - rewrite exec_bind, exec_ret, exec_get_big_endian.
    destruct (big_endian st =? 0); (split; [reflexivity |]);
      rewrite ?write_le16_bus, ?write_be16_bus;
      eexists; (split; [| reflexivity]); reflexivity.
  - rewrite exec_bind, exec_ret, exec_get_big_endian.
    destruct (big_endian st =? 0); (split; [reflexivity |]);
      rewrite ?write_le32_bus, ?write_be32_bus;
      eexists; (split; [| reflexivity]); reflexivity.
Qed.

End AddressCheck.

Lemma display_mem_range_ends_line host dev width addr len st :
  uint_gt addr (size dev) = false ->
  exists l,
    printed (display_mem_range host dev width addr len) st = l ++ [P_nl].
Proof.
  intros H. unfold display_mem_range. rewrite H.
  match goal with
  | |- context [bind ?X (fun _ => bind (printf P_nl) (fun _ => ret 0))] =>
      assert (emits no_address_error X) as HX
  end.
  { pattern width. apply width_cases;
      [ | | | intros w H8 H16 H32; rewrite switch_width_default by assumption ];
      repeat emits_step. }
  destruct (HX st) as [l [El _]]. exists l.
  apply printed_app. rewrite exec_bind.
  change (stdout (exec (printf P_nl ;; ret 0) ?s)) with (stdout s ++ [P_nl]).
  rewrite El, app_assoc. reflexivity.
Qed.

(** C7. For a change of width 8, 16 or 32 the address error is reported
    exactly when the start address is greater than the size of the region,
    and then nothing is written.  Otherwise nothing is printed and the
    value is stored at the start address, whether or not the end of the
    unit lies inside the region. *)
Theorem change_checks_only_the_start
  (host : byte_order) (dev : device_t) (width addr d32 : Z) (st : state) :
  width = 8 \/ width = 16 \/ width = 32 ->
  let m := change_mem_at host dev width addr d32 in
  let p := dev_addr dev + to_uint addr in
  let n := Z.to_nat (width / 8) in
  (address_error_reported m st <-> to_uint (size dev) < to_uint addr) /\
  (to_uint (size dev) < to_uint addr ->
   printed m st = [P_invalid_address (size dev)] /\
   bus (exec m st) = bus st /\ mem (exec m st) = mem st) /\
  (to_uint addr <= to_uint (size dev) ->
   printed m st = [] /\
   exists bs, List.length bs = n /\
              bus (exec m st) = bus st ++ [Store p bs; Msync p n]).
Proof.
  intros Hw. cbv zeta. split; [apply change_reported |]. split.
  - intros H. apply Z.ltb_lt in H. unfold change_mem_at, uint_gt.
    rewrite H. repeat split. apply printed_app. reflexivity.
  - intros H. apply Z.ltb_ge in H.
    destruct (change_mem_at_in_range host dev width addr d32 st H Hw)
      as [Hout Hbus].
    split; [| exact Hbus].
    apply printed_app. rewrite app_nil_r. exact Hout.
Qed.

Lemma change_checks_only_the_start_witness :
  16 + 4 > size small_device /\
  exists bs,
    List.length bs = 4%nat /\
    bus (exec (change_mem_at LITTLE_ENDIAN small_device 32 16 255)
              (initial_state (fun _ => 0)))
    = [Store 16 bs; Msync 16 4].
Proof.
  split; [reflexivity |].
  refine (proj2 (proj2 (proj2 (change_checks_only_the_start LITTLE_ENDIAN
            small_device 32 16 255 (initial_state (fun _ => 0)) _)) _)).
  - right; right; reflexivity.
  - cbn. lia.
Defined.

(** C9. In display, change and fill the address error is reported exactly
    when the start address is greater than the size of the region.  A start
    address equal to the size passes the check: no address error is
    printed, display runs to its closing newline and a change of width 8,
    16 or 32 stores at that address. *)
Theorem start_address_bound_is_strict
  (host : byte_order) (dev : device_t) (width addr d32 len inc : Z)
  (st : state) :
  let display := display_mem_range host dev width addr len in
  let change := change_mem_at host dev width addr d32 in
  let fill := fill_mem_range host dev width addr d32 len inc in
  (address_error_reported display st <-> to_uint (size dev) < to_uint addr) /\
  (address_error_reported change st <-> to_uint (size dev) < to_uint addr) /\
  (address_error_reported fill st <-> to_uint (size dev) < to_uint addr) /\
  (to_uint addr = to_uint (size dev) ->
   ~ address_error_reported display st /\
   ~ address_error_reported change st /\
   ~ address_error_reported fill st /\
   (exists l, printed display st = l ++ [P_nl]) /\
   (width = 8 \/ width = 16 \/ width = 32 ->
    exists bs,
      bus (exec change st)
      = bus st ++ [Store (dev_addr dev + to_uint (size dev)) bs;
                   Msync (dev_addr dev + to_uint (size dev))
                         (Z.to_nat (width / 8))])).
Proof.
  cbv zeta.
  pose proof (display_reported host dev width addr len st) as Hd.
  pose proof (change_reported host dev width addr d32 st) as Hc.
  pose proof (fill_reported host dev width addr d32 len inc st) as Hf.
  repeat (split; [assumption |]).
  intros E.
  assert (uint_gt addr (size dev) = false) as Hgt
    by (apply Z.ltb_ge; lia).
  split; [rewrite Hd; lia |]. split; [rewrite Hc; lia |].
  split; [rewrite Hf; lia |].
  split; [apply display_mem_range_ends_line; exact Hgt |].
  intros Hw.
  destruct (change_mem_at_in_range host dev width addr d32 st Hgt Hw)
    as [_ [bs [_ Hbus]]].
  exists bs. rewrite <- E. exact Hbus.
Qed.

(** ** The pattern of a fill *)

Lemma to_uint_small x : 0 <= x < 2 ^ 32 -> to_uint x = x.
Proof. intros H. apply Z.mod_small. exact H. Qed.

Lemma to_uint_to_int x : to_uint (to_int x) = to_uint x.
Proof.
  unfold to_uint, to_int.
  rewrite Zminus_mod_idemp_l. f_equal. lia.
Qed.

Lemma to_uint_add_int a b : to_uint (a + to_int b) = to_uint (a + b).
Proof.
  unfold to_uint. rewrite <- Zplus_mod_idemp_r.
  fold (to_uint (to_int b)). rewrite to_uint_to_int. unfold to_uint.
  rewrite Zplus_mod_idemp_r. reflexivity.
Qed.

Lemma mod_to_uint x w : 0 <= w <= 32 -> to_uint x mod 2 ^ w = x mod 2 ^ w.
Proof.
  intros Hw. unfold to_uint. apply Z.mod_mod_divide.
  exists (2 ^ (32 - w)). rewrite <- Z.pow_add_r by lia. f_equal. lia.
Qed.

(** The value of [d32 + i*inc] as the code computes it, at each width. *)
Lemma pattern_value d32 i inc w :
  0 <= w <= 32 ->
  uint_add d32 (int_mul i inc) mod 2 ^ w = (d32 + i * inc) mod 2 ^ w.
Proof.
  intros Hw. unfold uint_add, int_mul.
  rewrite to_uint_add_int. apply mod_to_uint. exact Hw.
Qed.

Lemma flat_map_seq_shift {A} (f : nat -> list A) n :
  flat_map f (seq 1 n) = flat_map (fun k => f (S k)) (seq 0 n).
Proof.
  rewrite <- seq_shift, !flat_map_concat_map, map_map. reflexivity.
Qed.

Section Loops.
Variable body : Z -> M unit.
Variable ev : Z -> list bus_event.
Variables be bound : Z.

Hypothesis body_spec : forall i st,
  0 <= i < bound -> big_endian st = be ->
  bus (exec (body i) st) = bus st ++ ev i /\
  stdout (exec (body i) st) = stdout st /\
  big_endian (exec (body i) st) = be.

Lemma for_lt_count : forall fuel i st,
  0 <= i -> Z.of_nat fuel = bound - i -> big_endian st = be ->
  let st' := exec (for_lt fuel i bound (fun i => i + 1) body) st in
  bus st' = bus st ++ flat_map (fun k => ev (i + Z.of_nat k)) (seq 0 fuel) /\
  stdout st' = stdout st /\ big_endian st' = be.
Proof.
  induction fuel as [| fuel IH]; intros i st Hi Hfuel Hbe; cbv zeta.
  - cbn. rewrite app_nil_r. auto.
  - cbn [for_lt].
    replace (i <? bound) with true by (symmetry; apply Z.ltb_lt; lia).
    rewrite exec_bind.
    destruct (body_spec i st ltac:(lia) Hbe) as [Hb [Ho He]].
    destruct (IH (i + 1) (exec (body i) st) ltac:(lia) ltac:(lia) He)
      as [Hb' [Ho' He']].
    rewrite Hb', Ho', Hb, Ho. repeat split; [| exact He'].
    rewrite <- app_assoc. f_equal.
    cbn [seq flat_map]. f_equal; [f_equal; lia |].
    rewrite flat_map_seq_shift.
    apply flat_map_ext. intros k. f_equal. lia.
Qed.

End Loops.

Section Fill.
Variable host : byte_order.
Variable dev : device_t.
Variables addr d32 len inc : Z.
Hypothesis addr_nonneg : 0 <= addr.
Hypothesis len_nonneg : 0 <= len.
Hypothesis in_bounds : addr + len <= size dev.
Hypothesis size_uint : size dev < 2 ^ 32.

Lemma fill_passes_checks :
  uint_gt addr (size dev) = false /\
  uint_gt (int_add addr len) (size dev) = false.
Proof.
  unfold uint_gt, int_add. rewrite to_uint_to_int.
  rewrite !to_uint_small by lia. split; apply Z.ltb_ge; lia.
Qed.

Lemma fill_address k i :
  0 <= k -> 0 <= i -> k * i + k <= len ->
  to_uint (int_add addr (int_mul k i)) = addr + k * i.
Proof.
  intros Hk Hi Hlen. unfold int_add, int_mul.
  rewrite to_uint_to_int, to_uint_add_int. apply to_uint_small. nia.
Qed.

Lemma fill_body_8 be i st :
  0 <= i < len -> big_endian st = be ->
  let m := write_8 host dev (int_add addr i)
             (to_uchar (uint_add d32 (int_mul i inc))) in
  bus (exec m st) = bus st ++ fill_unit dev be 8 addr d32 inc i /\
  stdout (exec m st) = stdout st /\ big_endian (exec m st) = be.
Proof.
  intros Hi Hbe. cbv zeta. split; [| split; [reflexivity | exact Hbe]].
  rewrite write_8_bus. unfold fill_unit, wire_bytes, to_uchar.
  change (8 / 8) with 1. change (Z.to_nat 1) with 1%nat.
  replace (to_uint (int_add addr i)) with (addr + 1 * i).
  2:{ unfold int_add. rewrite to_uint_to_int, to_uint_small; lia. }
  rewrite Z.mod_mod, (pattern_value d32 i inc 8), Z.add_assoc by lia.
  destruct (be =? 0); reflexivity.
Qed.

Lemma fill_body_16 be i st :
  0 <= i < Z.quot len 2 -> big_endian st = be ->
  let m := be <- get_big_endian ;;
           if be =? 0
           then write_le16 host dev (int_add addr (int_mul 2 i))
                  (to_ushort (uint_add d32 (int_mul i inc)))
           else write_be16 host dev (int_add addr (int_mul 2 i))
                  (to_ushort (uint_add d32 (int_mul i inc))) in
  bus (exec m st) = bus st ++ fill_unit dev be 16 addr d32 inc i /\
  stdout (exec m st) = stdout st /\ big_endian (exec m st) = be.
Proof.
  intros Hi Hbe. cbv zeta. rewrite exec_get_big_endian, Hbe.
  rewrite Z.quot_div_nonneg in Hi by lia.
  pose proof (Z.mul_div_le len 2 ltac:(lia)) as Hdiv.
  unfold fill_unit, wire_bytes, to_ushort.
  change (16 / 8) with 2. change (Z.to_nat 2) with 2%nat.
  destruct (be =? 0);
    (split; [| split; [reflexivity | exact Hbe]]);
    rewrite ?write_le16_bus, ?write_be16_bus;
    rewrite fill_address by lia;
    unfold to_ushort;
    rewrite Z.mod_mod, (pattern_value d32 i inc 16), Z.add_assoc by lia;
    reflexivity.
Qed.

Lemma fill_body_32 be i st :
  0 <= i < Z.quot len 4 -> big_endian st = be ->
  let m := be <- get_big_endian ;;
           if be =? 0
           then write_le32 host dev (int_add addr (int_mul 4 i))
                  (uint_add d32 (int_mul i inc))
           else write_be32 host dev (int_add addr (int_mul 4 i))
                  (uint_add d32 (int_mul i inc)) in
  bus (exec m st) = bus st ++ fill_unit dev be 32 addr d32 inc i /\
  stdout (exec m st) = stdout st /\ big_endian (exec m st) = be.
Proof.
  intros Hi Hbe. cbv zeta. rewrite exec_get_big_endian, Hbe.
  rewrite Z.quot_div_nonneg in Hi by lia.
  pose proof (Z.mul_div_le len 4 ltac:(lia)) as Hdiv.
  unfold fill_unit, wire_bytes.
  change (32 / 8) with 4. change (Z.to_nat 4) with 4%nat.
  destruct (be =? 0);
    (split; [| split; [reflexivity | exact Hbe]]);
    rewrite ?write_le32_bus, ?write_be32_bus;
    rewrite fill_address by lia;
    unfold to_uint at 1;
    rewrite (pattern_value d32 i inc 32), Z.add_assoc by lia;
    reflexivity.
Qed.

End Fill.

(** C6. A fill of width 8, 16 or 32 that lies inside the region stores
    [len / width_bytes] units; unit [i] goes to address
    [addr + i * width_bytes] and holds [value + i * inc] truncated to the
    width, in the byte order of the current endian mode.  Nothing is
    printed. *)
Theorem fill_writes_pattern
  (host : byte_order) (dev : device_t) (width addr value len inc : Z)
  (st : state) :
  width = 8 \/ width = 16 \/ width = 32 ->
  0 <= addr -> 0 <= len -> addr + len <= size dev -> size dev < 2 ^ 32 ->
  let st' := exec (fill_mem_range host dev width addr value len inc) st in
  let units := Z.to_nat (len / (width / 8)) in
  bus st' = bus st ++
            flat_map (fun i => fill_unit dev (big_endian st) width addr
                                 value inc (Z.of_nat i))
                     (seq 0 units) /\
  stdout st' = stdout st /\
  big_endian st' = big_endian st.
Proof.
  intros Hw Ha Hl Hb Hs. cbv zeta. unfold fill_mem_range.
  destruct (fill_passes_checks dev addr len Ha Hl Hb Hs) as [-> ->].
  destruct Hw as [-> | [-> | ->]]; rewrite exec_bind, exec_ret.
  - change (8 / 8) with 1. rewrite Z.div_1_r.
    apply (for_lt_count _ (fill_unit dev (big_endian st) 8 addr value inc)
             (big_endian st) len); try lia; try reflexivity.
    intros i st0. apply fill_body_8 with (len := len); assumption.
  - change (16 / 8) with 2. rewrite Z.quot_div_nonneg by lia.
    pose proof (Z.div_pos len 2 Hl ltac:(lia)).
    apply (for_lt_count _ (fill_unit dev (big_endian st) 16 addr value inc)
             (big_endian st) (len / 2)); try lia; try reflexivity.
    intros i st0 Hi. apply fill_body_16 with (len := len); try assumption.
    rewrite Z.quot_div_nonneg by lia. exact Hi.
  - change (32 / 8) with 4. rewrite Z.quot_div_nonneg by lia.
    pose proof (Z.div_pos len 4 Hl ltac:(lia)).
    apply (for_lt_count _ (fill_unit dev (big_endian st) 32 addr value inc)
             (big_endian st) (len / 4)); try lia; try reflexivity.
    intros i st0 Hi. apply fill_body_32 with (len := len); try assumption.
    rewrite Z.quot_div_nonneg by lia. exact Hi.
Qed.

Lemma fill_writes_pattern_witness :
  fill_mem_args "f 0 A5 10 1" = Some (32, 0, 165, 16, 1) /\
  bus (exec (fill_mem LITTLE_ENDIAN readme_device "f 0 A5 10 1")
            (initial_state (fun _ => 0)))
  = [Store 0 [165; 0; 0; 0]; Msync 0 4;
     Store 4 [166; 0; 0; 0]; Msync 4 4;
     Store 8 [167; 0; 0; 0]; Msync 8 4;
     Store 12 [168; 0; 0; 0]; Msync 12 4].
Proof.
  split; [reflexivity |].
  refine (proj1 (fill_writes_pattern LITTLE_ENDIAN readme_device 32 0 165 16 1
                   (initial_state (fun _ => 0)) _ _ _ _ _)).
  - right; right; reflexivity.
  - lia.
  - lia.
  - cbn. lia.
  - cbn. lia.
Defined.

(** * Further properties *)

(** ** Relations kept by the monad and the loop *)

Section Keeps.
Variable R : state -> state -> Prop.
Hypothesis R_refl : forall st, R st st.
Hypothesis R_trans : forall a b c, R a b -> R b c -> R a c.

Lemma keeps_ret {A} (a : A) : keeps R (ret a).
Proof. intros st. apply R_refl. Qed.

Lemma keeps_bind {A B} (m : M A) (k : A -> M B) :
  keeps R m -> (forall a, keeps R (k a)) -> keeps R (bind m k).
Proof.
  intros Hm Hk st. rewrite exec_bind.
  eapply R_trans; [apply Hm | apply Hk].
Qed.

Lemma keeps_if {A} (b : bool) (m1 m2 : M A) :
  keeps R m1 -> keeps R m2 -> keeps R (if b then m1 else m2).
Proof. destruct b; auto. Qed.

Lemma keeps_for_lt next body bound :
  (forall i, keeps R (body i)) ->
  forall fuel i, keeps R (for_lt fuel i bound next body).
Proof.
  intros Hb. induction fuel as [| fuel IH]; intros i; cbn [for_lt].
  - apply keeps_ret.
  - apply keeps_if; [| apply keeps_ret].
    apply keeps_bind; [apply Hb | intros _; apply IH].
Qed.

End Keeps.

Lemma reads_only_refl st : reads_only st st.
Proof.
  repeat split. exists []. rewrite app_nil_r. split; [reflexivity | constructor].
Qed.

Lemma reads_only_trans a b c : reads_only a b -> reads_only b c -> reads_only a c.
Proof.
  intros [M1 [E1 [l1 [B1 F1]]]] [M2 [E2 [l2 [B2 F2]]]].
  split; [congruence |]. split; [congruence |].
  exists (l1 ++ l2). rewrite B2, B1, app_assoc.
  split; [reflexivity | apply Forall_app; auto].
Qed.

Lemma device_untouched_refl st : device_untouched st st.
Proof. split; reflexivity. Qed.

Lemma device_untouched_trans a b c :
  device_untouched a b -> device_untouched b c -> device_untouched a c.
Proof. intros [M1 B1] [M2 B2]. split; congruence. Qed.

Lemma same_mode_refl st : same_mode st st.
Proof. reflexivity. Qed.

Lemma same_mode_trans a b c : same_mode a b -> same_mode b c -> same_mode a c.
Proof. unfold same_mode. congruence. Qed.

Lemma device_untouched_reads_only st st' :
  device_untouched st st' -> big_endian st' = big_endian st ->
  reads_only st st'.
Proof.
  intros [Hm Hb] He. repeat split; try assumption.
  exists []. rewrite app_nil_r. split; [assumption | constructor].
Qed.

(** A load adds one [Load] to the bus and changes nothing else. *)
Lemma reads_only_load host n p : keeps reads_only (volatile_load host n p).
Proof.
  intros st. repeat split. exists [Load p n].
  split; [reflexivity | repeat constructor].
Qed.

Ltac keeps_step refl trans :=
  lazymatch goal with
  | |- keeps _ (bind _ _) => apply (keeps_bind _ trans); [| intros ?]
  | |- keeps _ (if _ then _ else _) => apply keeps_if
  | |- keeps _ (for_lt _ _ _ _ _) =>
      apply (keeps_for_lt _ refl trans); intros ?
  | |- keeps _ (ret _) => apply (keeps_ret _ refl)
  | |- keeps _ (volatile_load _ _ _) =>
      first [ apply reads_only_load | intros ?; solve [repeat split] ]
  | |- keeps _ _ =>
      intros ?;
      solve [ repeat split
            | apply device_untouched_reads_only;
              [split; reflexivity | reflexivity] ]
  end.

Ltac reads_only_tac :=
  repeat keeps_step reads_only_refl reads_only_trans.
Ltac same_mode_tac :=
  repeat keeps_step same_mode_refl same_mode_trans.
Ltac device_untouched_tac :=
  repeat keeps_step device_untouched_refl device_untouched_trans.

Ltac switch_width width :=
  pattern width; apply width_cases;
  [ | | | intros ? ? ? ?; rewrite switch_width_default by assumption ].

(** ** Display only reads *)

Lemma display_mem_range_reads_only host dev width addr len :
  keeps reads_only (display_mem_range host dev width addr len).
Proof.
  unfold display_mem_range, read_8, read_le16, read_be16, read_le32, read_be32.
  cbv zeta. destruct (uint_gt addr (size dev)); [reads_only_tac |].
  switch_width width; reads_only_tac.
Qed.

(** Whatever the line, [display_mem] leaves the memory and the endian
    mode as they are, and all it does on the bus is loads: it never stores
    and never calls [msync]. *)
Lemma display_mem_reads_only host dev cmd st :
  let st' := exec (display_mem host dev cmd) st in
  mem st' = mem st /\ big_endian st' = big_endian st /\
  exists l, bus st' = bus st ++ l /\ Forall is_load l.
Proof.
  cbv zeta. change (reads_only st (exec (display_mem host dev cmd) st)).
  revert st. change (keeps reads_only (display_mem host dev cmd)).
  unfold display_mem. destruct (display_mem_args cmd) as [[[w a] l] |].
  - apply display_mem_range_reads_only.
  - reads_only_tac.
Qed.

(** ** The dispatch of [process_command] *)

Lemma process_command_dispatch host dev cmd :
  let c := cget cmd 0 in
  (In c ["c"; "C"]%char ->
   process_command host dev cmd = change_mem host dev cmd) /\
  (In c ["d"; "D"]%char ->
   process_command host dev cmd = display_mem host dev cmd) /\
  (In c ["e"; "E"]%char ->
   process_command host dev cmd = change_endian dev cmd) /\
  (In c ["f"; "F"]%char ->
   process_command host dev cmd = fill_mem host dev cmd) /\
  (c = "?"%char ->
   process_command host dev cmd = (display_help dev ;; ret 0)) /\
  (In c ["q"; "Q"]%char -> process_command host dev cmd = ret (-1)) /\
  (~ In c command_letters -> process_command host dev cmd = ret 0).
Proof.
  cbv zeta. unfold process_command.
  repeat split;
    try (intros [H | [H | []]]; rewrite <- H; reflexivity);
    try (intros H; rewrite H; reflexivity).
  intros H. unfold command_letters in H.
  destruct (cget cmd 0) as [[] [] [] [] [] [] [] []];
    try reflexivity; exfalso; apply H; cbn; tauto.
Qed.

Lemma letter_cases (c : ascii) :
  In c ["c"; "C"]%char \/ In c ["d"; "D"]%char \/ In c ["e"; "E"]%char \/
  In c ["f"; "F"]%char \/ c = "?"%char \/ In c ["q"; "Q"]%char \/
  ~ In c command_letters.
Proof.
  destruct (in_dec ascii_dec c command_letters) as [H | H]; [| tauto].
  cbn in H.
  repeat (destruct H as [H | H]; [subst c; cbn; auto 12 |]).
  destruct H.
Qed.

(** X1. A line whose first character is not one of [?cCdDeEfFqQ], the empty
    line included, is ignored without a word: [process_command] returns 0
    and the state, the output included, is as before. *)
Theorem unknown_command_is_ignored host dev cmd st :
  ~ In (cget cmd 0) command_letters ->
  process_command host dev cmd st = (0, st).
Proof.
  intros H.
  destruct (process_command_dispatch host dev cmd)
    as (_ & _ & _ & _ & _ & _ & Hdef).
  rewrite (Hdef H). reflexivity.
Qed.

Lemma unknown_command_is_ignored_witness :
  process_command LITTLE_ENDIAN readme_device "xyz" (initial_state (fun _ => 0))
  = (0, initial_state (fun _ => 0)).
Proof.
  refine (unknown_command_is_ignored LITTLE_ENDIAN readme_device "xyz"
            (initial_state (fun _ => 0)) _).
  cbn. intros H.
  repeat (destruct H as [H | H]; [discriminate H |]). exact H.
Defined.

(** ** Which commands touch what *)

Lemma change_endian_device_untouched dev cmd :
  keeps device_untouched (change_endian dev cmd).
Proof.
  unfold change_endian. destruct (sscanf cmd "%*c%c") as [status v].
  destruct (status <? 0); [device_untouched_tac |].
  destruct (status =? 1); device_untouched_tac.
Qed.

Lemma change_mem_same_mode host dev cmd : keeps same_mode (change_mem host dev cmd).
Proof.
  unfold change_mem. destruct (change_mem_args cmd) as [[[w a] v] |];
    [| same_mode_tac].
  unfold change_mem_at. destruct (uint_gt a (size dev)); [same_mode_tac |].
  switch_width w; same_mode_tac.
Qed.

Lemma fill_mem_same_mode host dev cmd : keeps same_mode (fill_mem host dev cmd).
Proof.
  unfold fill_mem. destruct (fill_mem_args cmd) as [[[[[w a] v] l] i] |];
    [| same_mode_tac].
  unfold fill_mem_range. cbv zeta.
  destruct (uint_gt a (size dev)); [same_mode_tac |].
  switch_width w; same_mode_tac.
Qed.

(** X2. Only change and fill lines can alter the memory: any other line
    leaves it as it is and issues nothing but loads.  Only change, display
    and fill lines reach the bus at all.  Only endian lines can alter the
    endian mode. *)
Theorem commands_touch_only_their_own host dev cmd st :
  let c := cget cmd 0 in
  let st' := exec (process_command host dev cmd) st in
  (~ In c ["c"; "C"; "f"; "F"]%char ->
   mem st' = mem st /\ exists l, bus st' = bus st ++ l /\ Forall is_load l) /\
  (~ In c ["c"; "C"; "d"; "D"; "f"; "F"]%char ->
   mem st' = mem st /\ bus st' = bus st) /\
  (~ In c ["e"; "E"]%char -> big_endian st' = big_endian st).
Proof.
  cbv zeta.
  destruct (process_command_dispatch host dev cmd)
    as (Hc & Hd & He & Hf & Hh & Hq & Hx).
  pose proof (display_mem_reads_only host dev cmd st) as Rd.
  pose proof (change_endian_device_untouched dev cmd st) as Re.
  pose proof (change_mem_same_mode host dev cmd st) as Mc.
  pose proof (fill_mem_same_mode host dev cmd st) as Mf.
  cbv zeta in Rd. unfold device_untouched in Re. unfold same_mode in Mc, Mf.
  assert (forall s : state, exists l : list bus_event,
             bus s = bus s ++ l /\ Forall is_load l) as Hnil.
  { intros s. exists []. rewrite app_nil_r. split; [reflexivity | constructor]. }
  destruct Rd as (Dm & De & Dl). destruct Re as (Em & Eb).
  destruct (letter_cases (cget cmd 0))
    as [L | [L | [L | [L | [L | [L | L]]]]]];
    [ rewrite (Hc L) | rewrite (Hd L) | rewrite (He L) | rewrite (Hf L)
    | rewrite (Hh L) | rewrite (Hq L) | rewrite (Hx L) ];
    repeat split; try intros N;
    first [ assumption
          | exact (Hnil st)
          | rewrite Eb; apply Hnil
          | exfalso;
            match goal with
            | N : ~ In _ _ |- _ => apply N; cbn in *; tauto
            end ].
Qed.

(** ** The command letter *)

Lemma sscanf_skip_letter c r f :
  c <> NUL ->
  sscanf (String c r) (String "%" (String "*" (String "c" f)))
  = run (parse_format f) r [].
Proof.
  intros Hc. unfold sscanf. cbn [parse_format run at_end rest].
  apply Ascii.eqb_neq in Hc. rewrite Hc. reflexivity.
Qed.

Lemma args_ignore_letter c c' r :
  c <> NUL -> c' <> NUL ->
  change_mem_args (String c r) = change_mem_args (String c' r) /\
  display_mem_args (String c r) = display_mem_args (String c' r) /\
  fill_mem_args (String c r) = fill_mem_args (String c' r) /\
  sscanf (String c r) "%*c%c" = sscanf (String c' r) "%*c%c".
Proof.
  intros Hc Hc'.
  unfold change_mem_args, display_mem_args, fill_mem_args.
  change (cget (String c r) 1) with (cget r 0).
  change (cget (String c' r) 1) with (cget r 0).
  rewrite !(sscanf_skip_letter c) by assumption.
  rewrite !(sscanf_skip_letter c') by assumption.
  repeat split.
Qed.

(** X3. The commands do not look at their letter again: an upper-case
    command letter does exactly what the lower-case letter does, whatever
    follows it on the line. *)
Theorem command_letter_case host dev r st :
  process_command host dev (String "C" r) st
  = process_command host dev (String "c" r) st /\
  process_command host dev (String "D" r) st
  = process_command host dev (String "d" r) st /\
  process_command host dev (String "E" r) st
  = process_command host dev (String "e" r) st /\
  process_command host dev (String "F" r) st
  = process_command host dev (String "f" r) st /\
  process_command host dev (String "Q" r) st
  = process_command host dev (String "q" r) st.
Proof.
  repeat split.
Qed.

(** ** Sessions *)

(** X4. The lines of a session are taken in order.  If the first part of
    the input ends the loop, the lines after it are never processed; if
    not, the rest of the input is processed from the state the first part
    left. *)
Theorem parse_command_app host dev l1 l2 : forall st,
  parse_command host dev (l1 ++ l2) st =
  match eval (parse_command host dev l1) st with
  | Terminated => parse_command host dev l1 st
  | Running =>
      parse_command host dev l2 (exec (parse_command host dev l1) st)
  end.
Proof.
  induction l1 as [| [line |] l1 IH]; intros st.
  - reflexivity.
  - cbn [app parse_command].
    destruct (strlen line =? 0); [apply IH |].
    unfold eval, exec, bind in *.
    destruct (process_command host dev line st) as [status st1].
    cbn [fst snd]. destruct (status <? 0); [reflexivity | apply IH].
  - cbn [app parse_command]. unfold eval, exec, bind in *.
    cbn [fst snd]. apply IH.
Qed.

(** ** Setting and reporting the endian mode *)

Lemma sscanf_bare_letter c :
  c <> NUL -> sscanf (String c EmptyString) "%*c%c" = (EOF, []).
Proof.
  intros Hc. rewrite sscanf_skip_letter by assumption. reflexivity.
Qed.

(** X5. [eb] sets the endian flag to 1 and [el] sets it to 0; whatever
    follows the second character is ignored and nothing is printed.  A
    bare [e] changes nothing and reports big-endian exactly when the flag
    is not 0, so it reports the mode that was set last. *)
Theorem endian_mode_set_and_reported host dev r st :
  let eb := process_command host dev (String "e" (String "b" r)) in
  let el := process_command host dev (String "e" (String "l" r)) in
  let e := process_command host dev "e" in
  eb st = (0, exec (set_big_endian 1) st) /\
  el st = (0, exec (set_big_endian 0) st) /\
  e st = (0, exec (printf (if big_endian st =? 0 then P_little_endian
                           else P_big_endian)) st) /\
  printed e (exec eb st) = [P_big_endian] /\
  printed e (exec el st) = [P_little_endian].
Proof.
  cbv zeta.
  assert (forall s, process_command host dev "e" s
                    = (0, exec (printf (if big_endian s =? 0
                                        then P_little_endian
                                        else P_big_endian)) s)) as He.
  { intros s.
    change (change_endian dev "e" s = (0, exec (printf (if big_endian s =? 0
                                        then P_little_endian
                                        else P_big_endian)) s)).
    unfold change_endian. rewrite sscanf_bare_letter by discriminate.
    cbn [EOF Z.ltb Z.compare].
    unfold bind, get_big_endian, exec. cbn [fst snd].
    destruct (big_endian s =? 0); reflexivity. }
  assert (process_command host dev (String "e" (String "b" r)) st
          = (0, exec (set_big_endian 1) st)) as Hb.
  { change (change_endian dev (String "e" (String "b" r)) st
            = (0, exec (set_big_endian 1) st)).
    unfold change_endian.
    rewrite (sscanf_endian_suffix "e" "b" r) by discriminate. reflexivity. }
  assert (process_command host dev (String "e" (String "l" r)) st
          = (0, exec (set_big_endian 0) st)) as Hl.
  { change (change_endian dev (String "e" (String "l" r)) st
            = (0, exec (set_big_endian 0) st)).
    unfold change_endian.
    rewrite (sscanf_endian_suffix "e" "l" r) by discriminate. reflexivity. }
  repeat split; try assumption; try apply He.
  - apply printed_app. unfold exec at 1 2. rewrite He, Hb. reflexivity.
  - apply printed_app. unfold exec at 1 2. rewrite He, Hl. reflexivity.
Qed.

(** ** Memory after a store *)

Lemma store_bytes_above bs : forall m p q,
  p + Z.of_nat (List.length bs) <= q -> store_bytes m p bs q = m q.
Proof.
  induction bs as [| b bs IH]; intros m p q H; cbn [store_bytes];
    [reflexivity |].
  cbn [List.length] in H. rewrite IH by lia. unfold poke.
  destruct (Z.eqb_spec q p); [lia | reflexivity].
Qed.

Lemma store_bytes_outside bs m p q :
  q < p \/ p + Z.of_nat (List.length bs) <= q -> store_bytes m p bs q = m q.
Proof.
  intros [H | H]; [apply store_bytes_below | apply store_bytes_above];
    assumption.
Qed.

Lemma store_bytes_at bs : forall m p k,
  (k < List.length bs)%nat ->
  store_bytes m p bs (p + Z.of_nat k) = nth k bs 0.
Proof.
  induction bs as [| b bs IH]; intros m p k H; cbn [List.length] in H;
    [lia |].
  cbn [store_bytes]. destruct k as [| k].
  - rewrite store_bytes_below by lia. unfold poke.
    rewrite Z.add_0_r, Z.eqb_refl. reflexivity.
  - replace (p + Z.of_nat (S k)) with (p + 1 + Z.of_nat k) by lia.
    rewrite IH by lia. reflexivity.
Qed.

Lemma load_bytes_ext n : forall m m' p,
  (forall q, p <= q < p + Z.of_nat n -> m q = m' q) ->
  load_bytes m p n = load_bytes m' p n.
Proof.
  induction n as [| n IH]; intros m m' p H; cbn [load_bytes];
    [reflexivity |].
  rewrite (H p) by lia. f_equal. apply IH. intros q Hq. apply H. lia.
Qed.

Lemma length_load_bytes n : forall m p, List.length (load_bytes m p n) = n.
Proof. induction n; intros; cbn; [| rewrite IHn]; reflexivity. Qed.

Lemma le_bytes_are_bytes n : forall v, Forall is_byte (le_bytes n v).
Proof.
  induction n as [| n IH]; intros v; cbn [le_bytes]; constructor;
    [| apply IH].
  unfold is_byte. change 255 with (Z.ones 8). rewrite Z.land_ones by lia.
  apply Z.mod_pos_bound. lia.
Qed.

Lemma le_value_range bs :
  Forall is_byte bs -> 0 <= le_value bs < 2 ^ (8 * Z.of_nat (List.length bs)).
Proof.
  induction 1 as [| b bs Hb _ IH]; cbn [le_value List.length].
  - cbn. lia.
  - replace (8 * Z.of_nat (S (List.length bs)))
      with (8 + 8 * Z.of_nat (List.length bs)) by lia.
    rewrite Z.pow_add_r by lia. unfold is_byte in Hb.
    change (2 ^ 8) with 256. nia.
Qed.

Lemma le_bytes_le_value bs :
  Forall is_byte bs -> le_bytes (List.length bs) (le_value bs) = bs.
Proof.
  induction 1 as [| b bs Hb _ IH]; cbn [le_value List.length le_bytes];
    [reflexivity |].
  unfold is_byte in Hb.
  change 255 with (Z.ones 8). rewrite Z.land_ones, Z.shiftr_div_pow2 by lia.
  change (2 ^ 8) with 256.
  replace (b + 256 * le_value bs) with (b + le_value bs * 256) by lia.
  rewrite Z.mod_add, Z.div_add, Z.mod_small, Z.div_small by lia.
  rewrite Z.add_0_l, IH. reflexivity.
Qed.

(** The byte-swapped value of two or four bytes is the value of the bytes
    in the opposite order. *)
Lemma bswap_16_le_value bs :
  Forall is_byte bs -> List.length bs = 2%nat ->
  bswap_16 (le_value bs) = le_value (rev bs).
Proof.
  intros Hb Hl. rewrite <- bswap_16_range.
  change (2 ^ 16) with (2 ^ (8 * Z.of_nat 2)).
  rewrite <- le_value_le_bytes, le_bytes_bswap_16, <- Hl,
    le_bytes_le_value by assumption.
  reflexivity.
Qed.

Lemma bswap_32_le_value bs :
  Forall is_byte bs -> List.length bs = 4%nat ->
  bswap_32 (le_value bs) = le_value (rev bs).
Proof.
  intros Hb Hl. rewrite <- bswap_32_range.
  change (2 ^ 32) with (2 ^ (8 * Z.of_nat 4)).
  rewrite <- le_value_le_bytes, le_bytes_bswap_32, <- Hl,
    le_bytes_le_value by assumption.
  reflexivity.
Qed.

(** ** What the access functions return and leave behind *)

Section AccessSpec.
Variable host : byte_order.
Variable dev : device_t.
Variable addr : Z.
Variable st : state.
Let p := dev_addr dev + to_uint addr.

Lemma read_8_spec :
  read_8 host dev addr st = (mem st p, after_load st p 1).
Proof.
  unfold read_8, volatile_load, after_load. cbv zeta. fold p. f_equal.
  destruct host; cbn; lia.
Qed.

Lemma read_le16_spec :
  Forall is_byte (load_bytes (mem st) p 2) ->
  read_le16 host dev addr st
  = (le_value (load_bytes (mem st) p 2), after_load st p 2).
Proof.
  intros Hb. unfold read_le16, volatile_load, after_load, bind, ret.
  cbv zeta. fold p. cbn [fst snd]. f_equal.
  pose proof (le_value_range _ Hb) as Hr.
  rewrite length_load_bytes in Hr. change (2 ^ (8 * Z.of_nat 2)) with (2 ^ 16) in Hr.
  unfold to_ushort.
  destruct host; cbn [byte_order_eqb negb native_value].
  - apply Z.mod_small. exact Hr.
  - rewrite bswap_16_le_value, rev_involutive;
      [apply Z.mod_small; exact Hr | apply Forall_rev; exact Hb
      | rewrite length_rev; apply length_load_bytes].
Qed.

Lemma read_be16_spec :
  Forall is_byte (load_bytes (mem st) p 2) ->
  read_be16 host dev addr st
  = (le_value (rev (load_bytes (mem st) p 2)), after_load st p 2).
Proof.
  intros Hb. unfold read_be16, volatile_load, after_load, bind, ret.
  cbv zeta. fold p. cbn [fst snd]. f_equal.
  pose proof (le_value_range _ (Forall_rev Hb)) as Hr.
  rewrite length_rev, length_load_bytes in Hr.
  change (2 ^ (8 * Z.of_nat 2)) with (2 ^ 16) in Hr.
  unfold to_ushort.
  destruct host; cbn [byte_order_eqb negb native_value].
  - rewrite bswap_16_le_value;
      [apply Z.mod_small; exact Hr | exact Hb | apply length_load_bytes].
  - apply Z.mod_small. exact Hr.
Qed.

Lemma read_le32_spec :
  Forall is_byte (load_bytes (mem st) p 4) ->
  read_le32 host dev addr st
  = (le_value (load_bytes (mem st) p 4), after_load st p 4).
Proof.
  intros Hb. unfold read_le32, volatile_load, after_load, bind, ret.
  cbv zeta. fold p. cbn [fst snd]. f_equal.
  destruct host; cbn [byte_order_eqb negb native_value]; [reflexivity |].
  rewrite bswap_32_le_value, rev_involutive;
    [reflexivity | apply Forall_rev; exact Hb
    | rewrite length_rev; apply length_load_bytes].
Qed.

Lemma read_be32_spec :
  Forall is_byte (load_bytes (mem st) p 4) ->
  read_be32 host dev addr st
  = (le_value (rev (load_bytes (mem st) p 4)), after_load st p 4).
Proof.
  intros Hb. unfold read_be32, volatile_load, after_load, bind, ret.
  cbv zeta. fold p. cbn [fst snd]. f_equal.
  destruct host; cbn [byte_order_eqb negb native_value]; [| reflexivity].
  rewrite bswap_32_le_value;
    [reflexivity | exact Hb | apply length_load_bytes].
Qed.

Variable d : Z.

Lemma write_8_spec :
  write_8 host dev addr d st = (tt, after_store st p (le_bytes 1 (to_uchar d))).
Proof.
  unfold write_8, volatile_store, msync, after_store, bind. cbv zeta.
  fold p. cbn [fst snd mem bus stdout big_endian].
  rewrite <- app_assoc. destruct host; reflexivity.
Qed.

Lemma write_le16_spec :
  write_le16 host dev addr d st
  = (tt, after_store st p (le_bytes 2 (to_ushort d))).
Proof.
  unfold write_le16, volatile_store, msync, after_store, bind. cbv zeta.
  fold p. cbn [fst snd mem bus stdout big_endian].
  rewrite <- app_assoc, wire_le16. reflexivity.
Qed.

Lemma write_be16_spec :
  write_be16 host dev addr d st
  = (tt, after_store st p (rev (le_bytes 2 (to_ushort d)))).
Proof.
  unfold write_be16, volatile_store, msync, after_store, bind. cbv zeta.
  fold p. cbn [fst snd mem bus stdout big_endian].
  rewrite <- app_assoc, wire_be16. reflexivity.
Qed.

Lemma write_le32_spec :
  write_le32 host dev addr d st
  = (tt, after_store st p (le_bytes 4 (to_uint d))).
Proof.
  unfold write_le32, volatile_store, msync, after_store, bind. cbv zeta.
  fold p. cbn [fst snd mem bus stdout big_endian].
  rewrite <- app_assoc, wire_le32. reflexivity.
Qed.

Lemma write_be32_spec :
  write_be32 host dev addr d st
  = (tt, after_store st p (rev (le_bytes 4 (to_uint d)))).
Proof.
  unfold write_be32, volatile_store, msync, after_store, bind. cbv zeta.
  fold p. cbn [fst snd mem bus stdout big_endian].
  rewrite <- app_assoc, wire_be32. reflexivity.
Qed.

End AccessSpec.

(** ** Commands that are refused *)

(** X6. A display, change or fill whose start address is greater than the
    size of the region prints the address error and nothing else, also when
    its width is not valid.  One whose start address passes and whose width
    is not 8, 16 or 32 prints the syntax error (display adds its closing
    newline).  In both cases neither the memory nor the bus is touched. *)
Theorem refused_commands_touch_nothing
  host dev width addr d32 len inc st :
  to_uint (size dev) < to_uint addr \/
  (width <> 8 /\ width <> 16 /\ width <> 32) ->
  let display := display_mem_range host dev width addr len in
  let change := change_mem_at host dev width addr d32 in
  let fill := fill_mem_range host dev width addr d32 len inc in
  let refusal := if uint_gt addr (size dev)
                 then P_invalid_address (size dev) else P_syntax_error in
  device_untouched st (exec display st) /\
  device_untouched st (exec change st) /\
  device_untouched st (exec fill st) /\
  printed display st
  = (if uint_gt addr (size dev) then [refusal] else [refusal; P_nl]) /\
  printed change st = [refusal] /\
  printed fill st = [refusal].
Proof.
  intros H. cbv zeta.
  unfold display_mem_range, change_mem_at, fill_mem_range. cbv zeta.
  destruct (uint_gt addr (size dev)) eqn:E.
  - repeat split; apply printed_app; reflexivity.
  - destruct H as [H | (H8 & H16 & H32)];
      [apply Z.ltb_ge in E; lia |].
    rewrite !switch_width_default by assumption.
    repeat split; apply printed_app;
      first [ reflexivity
            | unfold exec, bind, printf, ret; cbn [fst snd stdout];
              rewrite <- app_assoc; reflexivity ].
Qed.

Lemma refused_commands_witness :
  printed (change_mem LITTLE_ENDIAN small_device "c64 11 0")
          (initial_state (fun _ => 0))
  = [P_invalid_address 16] /\
  printed (change_mem LITTLE_ENDIAN small_device "c64 10 0")
          (initial_state (fun _ => 0))
  = [P_syntax_error].
Proof.
  split.
  - refine (proj1 (proj2 (proj2 (proj2 (proj2
      (refused_commands_touch_nothing LITTLE_ENDIAN small_device 64 17 0 0 0
         (initial_state (fun _ => 0)) _)))))).
    left. cbn. lia.
  - refine (proj1 (proj2 (proj2 (proj2 (proj2
      (refused_commands_touch_nothing LITTLE_ENDIAN small_device 64 16 0 0 0
         (initial_state (fun _ => 0)) _)))))).
    right. repeat split; discriminate.
Defined.

(** ** Reading in the other mode, and reading bytes *)

Lemma nth_le_bytes n : forall k v,
  (k < n)%nat -> nth k (le_bytes n v) 0 = (v / 2 ^ (8 * Z.of_nat k)) mod 256.
Proof.
  induction n as [| n IH]; intros k v Hk; [lia |].
  cbn [le_bytes]. destruct k as [| k].
  - cbn [nth]. change 255 with (Z.ones 8). rewrite Z.land_ones by lia.
    change (2 ^ (8 * Z.of_nat 0)) with 1. rewrite Z.div_1_r. reflexivity.
  - cbn [nth]. rewrite IH by lia. rewrite Z.shiftr_div_pow2 by lia.
    rewrite Z.div_div by lia. rewrite <- Z.pow_add_r by lia.
    do 3 f_equal. lia.
Qed.

Lemma byte_of_to_uint v k :
  0 <= k < 4 ->
  (to_uint v / 2 ^ (8 * k)) mod 256 = (v / 2 ^ (8 * k)) mod 256.
Proof.
  intros Hk. unfold to_uint. change 256 with (2 ^ 8).
  rewrite <- !Z.land_ones, <- !Z.shiftr_div_pow2 by lia.
  apply Z.bits_inj'. intros i Hi.
  rewrite !Z.land_spec, !Z.shiftr_spec by lia.
  destruct (Z.ltb_spec i 8) as [Hlt | Hge].
  - rewrite Z.land_spec, (Z.ones_spec_low 32) by lia.
    rewrite andb_true_r. reflexivity.
  - rewrite (Z.ones_spec_high 8 i) by lia. rewrite !andb_false_r. reflexivity.
Qed.

(** X7. A value written in one endian mode and read in the other comes back
    byte-swapped, at 16 and at 32 bits, on a host of either byte order. *)
Theorem mixed_endian_access host dev addr v st :
  eval (read_be16 host dev addr) (exec (write_le16 host dev addr v) st)
  = bswap_16 (v mod 2 ^ 16) /\
  eval (read_le16 host dev addr) (exec (write_be16 host dev addr v) st)
  = bswap_16 (v mod 2 ^ 16) /\
  eval (read_be32 host dev addr) (exec (write_le32 host dev addr v) st)
  = bswap_32 (v mod 2 ^ 32) /\
  eval (read_le32 host dev addr) (exec (write_be32 host dev addr v) st)
  = bswap_32 (v mod 2 ^ 32).
Proof.
  unfold eval, exec.
  set (p := dev_addr dev + to_uint addr).
  assert (le_value (rev (le_bytes 2 (to_ushort v))) = bswap_16 (v mod 2 ^ 16))
    as V16.
  { rewrite <- le_bytes_bswap_16, le_value_le_bytes. apply bswap_16_range. }
  assert (le_value (rev (le_bytes 4 (to_uint v))) = bswap_32 (v mod 2 ^ 32))
    as V32.
  { rewrite <- le_bytes_bswap_32, le_value_le_bytes. apply bswap_32_range. }
  repeat split.
  - rewrite write_le16_spec. cbn [snd].
    pose proof (load_store_bytes (le_bytes 2 (to_ushort v)) (mem st) p) as L.
    rewrite length_le_bytes in L.
    rewrite read_be16_spec; cbn [after_store mem]; fold p; rewrite L;
      [exact V16 | apply le_bytes_are_bytes].
  - rewrite write_be16_spec. cbn [snd].
    pose proof (load_store_bytes (rev (le_bytes 2 (to_ushort v))) (mem st) p)
      as L.
    rewrite length_rev, length_le_bytes in L.
    rewrite read_le16_spec; cbn [after_store mem]; fold p; rewrite L;
      [exact V16 | apply Forall_rev, le_bytes_are_bytes].
  - rewrite write_le32_spec. cbn [snd].
    pose proof (load_store_bytes (le_bytes 4 (to_uint v)) (mem st) p) as L.
    rewrite length_le_bytes in L.
    rewrite read_be32_spec; cbn [after_store mem]; fold p; rewrite L;
      [exact V32 | apply le_bytes_are_bytes].
  - rewrite write_be32_spec. cbn [snd].
    pose proof (load_store_bytes (rev (le_bytes 4 (to_uint v))) (mem st) p)
      as L.
    rewrite length_rev, length_le_bytes in L.
    rewrite read_le32_spec; cbn [after_store mem]; fold p; rewrite L;
      [exact V32 | apply Forall_rev, le_bytes_are_bytes].
Qed.

(** X8. After a 32-bit write at [addr], the byte read at [addr + k] is byte
    [k] of the value, counted from the least significant byte in
    little-endian mode and from the most significant in big-endian mode. *)
Theorem bytes_of_a_32_bit_write host dev addr v k st :
  0 <= addr -> addr + 4 <= 2 ^ 32 -> 0 <= k < 4 ->
  eval (read_8 host dev (addr + k)) (exec (write_le32 host dev addr v) st)
  = (v / 2 ^ (8 * k)) mod 256 /\
  eval (read_8 host dev (addr + k)) (exec (write_be32 host dev addr v) st)
  = (v / 2 ^ (8 * (3 - k))) mod 256.
Proof.
  intros Ha Hb Hk. unfold eval, exec.
  rewrite write_le32_spec, write_be32_spec. cbn [snd].
  rewrite !read_8_spec. cbn [fst after_store mem].
  rewrite (to_uint_small addr), (to_uint_small (addr + k)) by lia.
  replace (dev_addr dev + (addr + k))
    with (dev_addr dev + addr + Z.of_nat (Z.to_nat k)) by lia.
  rewrite !store_bytes_at
    by (rewrite ?length_rev, length_le_bytes; lia).
  rewrite rev_nth by (rewrite length_le_bytes; lia).
  rewrite length_le_bytes, !nth_le_bytes by lia.
  rewrite <- (byte_of_to_uint v k), <- (byte_of_to_uint v (3 - k)) by lia.
  split; do 3 f_equal; lia.
Qed.

Lemma bytes_of_a_32_bit_write_witness :
  eval (read_8 LITTLE_ENDIAN readme_device (8 + 1))
       (exec (write_be32 LITTLE_ENDIAN readme_device 8 11187557)
             (initial_state (fun _ => 0)))
  = (11187557 / 2 ^ (8 * (3 - 1))) mod 256.
Proof.
  refine (proj2 (bytes_of_a_32_bit_write LITTLE_ENDIAN readme_device 8
                   11187557 1 (initial_state (fun _ => 0)) _ _ _)); lia.
Defined.

(** ** The memory after a change *)

Lemma wire_bytes_1 be x : wire_bytes be 1 x = le_bytes 1 x.
Proof. unfold wire_bytes. destruct (be =? 0); reflexivity. Qed.

Lemma length_wire_bytes be n x : List.length (wire_bytes be n x) = n.
Proof.
  unfold wire_bytes. destruct (be =? 0); rewrite ?length_rev;
    apply length_le_bytes.
Qed.

Lemma wire_bytes_are_bytes be n x : Forall is_byte (wire_bytes be n x).
Proof.
  unfold wire_bytes. destruct (be =? 0); try apply Forall_rev;
    apply le_bytes_are_bytes.
Qed.

Lemma unit_value_wire_bytes be n x :
  unit_value be (wire_bytes be n x) = x mod 2 ^ (8 * Z.of_nat n).
Proof.
  unfold unit_value, wire_bytes. destruct (be =? 0);
    rewrite ?rev_involutive; apply le_value_le_bytes.
Qed.

(** A change that passes its checks is one store of the unit. *)
Lemma change_mem_at_exec host dev width addr d32 st :
  width = 8 \/ width = 16 \/ width = 32 ->
  uint_gt addr (size dev) = false ->
  change_mem_at host dev width addr d32 st
  = (0, after_store st (dev_addr dev + to_uint addr)
          (wire_bytes (big_endian st) (Z.to_nat (width / 8))
             (d32 mod 2 ^ width))).
Proof.
  intros Hw Hgt. unfold change_mem_at. rewrite Hgt.
  destruct Hw as [-> | [-> | ->]].
  - unfold bind, ret. rewrite write_8_spec. cbn [fst snd].
    change (Z.to_nat (8 / 8)) with 1%nat. rewrite wire_bytes_1.
    unfold to_uchar. rewrite !Z.mod_mod by lia. reflexivity.
  - change (Z.to_nat (16 / 8)) with 2%nat. unfold wire_bytes.
    unfold bind, ret, get_big_endian. cbn [fst snd].
    destruct (big_endian st =? 0);
      rewrite ?write_le16_spec, ?write_be16_spec; cbn [fst snd];
      unfold to_ushort; rewrite !Z.mod_mod by lia; reflexivity.
  - change (Z.to_nat (32 / 8)) with 4%nat. unfold wire_bytes.
    unfold bind, ret, get_big_endian. cbn [fst snd].
    destruct (big_endian st =? 0);
      rewrite ?write_le32_spec, ?write_be32_spec; cbn [fst snd];
      reflexivity.
Qed.

(** X9. A change of width 8, 16 or 32 whose start address passes the check
    leaves the value, truncated to the width, in the bytes of the unit, in
    the byte order of the endian mode; every other byte of the memory, and
    the endian mode, are as before. *)
Theorem change_stores_the_unit host dev width addr d32 st :
  width = 8 \/ width = 16 \/ width = 32 ->
  to_uint addr <= to_uint (size dev) ->
  let st' := exec (change_mem_at host dev width addr d32) st in
  let p := dev_addr dev + to_uint addr in
  let n := Z.to_nat (width / 8) in
  load_bytes (mem st') p n = wire_bytes (big_endian st) n (d32 mod 2 ^ width) /\
  unit_value (big_endian st) (load_bytes (mem st') p n) = d32 mod 2 ^ width /\
  (forall q, q < p \/ p + width / 8 <= q -> mem st' q = mem st q) /\
  big_endian st' = big_endian st.
Proof.
  intros Hw Ha. cbv zeta. unfold exec.
  rewrite change_mem_at_exec by (try assumption; apply Z.ltb_ge; exact Ha).
  cbn [snd after_store mem big_endian].
  set (bs := wire_bytes _ _ _).
  assert (List.length bs = Z.to_nat (width / 8)) as Hl
    by apply length_wire_bytes.
  assert (load_bytes (store_bytes (mem st) (dev_addr dev + to_uint addr) bs)
            (dev_addr dev + to_uint addr) (Z.to_nat (width / 8)) = bs) as L
    by (rewrite <- Hl; apply load_store_bytes).
  rewrite L. repeat split.
  - subst bs. rewrite unit_value_wire_bytes.
    destruct Hw as [-> | [-> | ->]]; apply Z.mod_mod; lia.
  - intros q Hq. apply store_bytes_outside. rewrite Hl.
    destruct Hw as [-> | [-> | ->]]; cbn in *; lia.
Qed.

Lemma change_stores_the_unit_witness :
  load_bytes
    (mem (exec (change_mem_at BIG_ENDIAN readme_device 16 4 6510)
               (initial_state (fun _ => 0))))
    4 2
  = [110; 25].
Proof.
  refine (proj1 (change_stores_the_unit BIG_ENDIAN readme_device 16 4 6510
                   (initial_state (fun _ => 0)) _ _)).
  - right; left; reflexivity.
  - cbn. lia.
Defined.

(** ** Loops with an invariant *)

Section LoopInvariant.
Variable J : Z -> state -> Prop.
Variable next : Z -> Z.
Variable body : Z -> M unit.
Variables k bound : Z.
Hypothesis k_pos : 0 < k.
Hypothesis next_spec : forall i, 0 <= i < bound -> next i = i + k.
Hypothesis body_spec : forall j st,
  0 <= j -> k * j < bound -> J j st -> J (j + 1) (exec (body (k * j)) st).

(** The loop runs once for each of the [(bound + k - 1) / k] multiples of
    [k] below [bound]; the fuel is needed for nothing else. *)
Lemma for_lt_invariant : forall fuel j st,
  0 <= j -> bound - k * j <= Z.of_nat fuel * k -> J j st ->
  J (Z.max j ((bound + k - 1) / k))
    (exec (for_lt fuel (k * j) bound next body) st).
Proof.
  assert (forall j, 0 <= j -> bound <= k * j ->
                    Z.max j ((bound + k - 1) / k) = j) as Hdone.
  { intros j Hj Hb. apply Z.max_l.
    apply Z.lt_succ_r. apply Z.div_lt_upper_bound; nia. }
  assert (forall j, 0 <= j -> k * j < bound ->
                    j + 1 <= (bound + k - 1) / k) as Hmore.
  { intros j Hj Hb. apply Z.div_le_lower_bound; nia. }
  induction fuel as [| fuel IH]; intros j st Hj Hfuel HJ.
  - cbn [for_lt]. rewrite exec_ret, Hdone by lia. exact HJ.
  - cbn [for_lt]. destruct (Z.ltb_spec (k * j) bound) as [Hlt | Hge].
    + rewrite exec_bind, next_spec by nia.
      replace (k * j + k) with (k * (j + 1)) by lia.
      pose proof (Hmore j Hj Hlt) as Hm.
      replace (Z.max j ((bound + k - 1) / k))
        with (Z.max (j + 1) ((bound + k - 1) / k)) by lia.
      apply IH; [lia | nia | apply body_spec; assumption].
    + rewrite exec_ret, Hdone by lia. exact HJ.
Qed.

End LoopInvariant.

(** ** What a display shows *)

Lemma to_int_small x : - 2 ^ 31 <= x < 2 ^ 31 -> to_int x = x.
Proof. intros H. unfold to_int. rewrite Z.mod_small; lia. Qed.

Lemma load_bytes_ok m p n : bytes_ok m -> Forall is_byte (load_bytes m p n).
Proof.
  intros Hm. revert p. induction n as [| n IH]; intros p; cbn [load_bytes];
    constructor; [apply Hm | apply IH].
Qed.

Lemma unit_value_1 be m q : unit_value be (load_bytes m q 1) = m q.
Proof. unfold unit_value. destruct (be =? 0); cbn; lia. Qed.

Section DisplayBody.
Variable host : byte_order.
Variable dev : device_t.
Variables addr i : Z.
Variable st : state.
Hypothesis addr_nonneg : 0 <= addr.
Hypothesis i_nonneg : 0 <= i.
Hypothesis no_wrap : addr + i < 2 ^ 31.
Hypothesis mem_ok : bytes_ok (mem st).

Let p := dev_addr dev + addr.
Let row : M unit :=
  if Z.rem i 16 =? 0 then printf (P_row (int_add addr i)) else ret tt.

Lemma display_row :
  row st = (tt, {| mem := mem st; bus := bus st;
                   stdout := stdout st
                             ++ (if i mod 16 =? 0 then [P_row (addr + i)]
                                 else []);
                   big_endian := big_endian st |}).
Proof.
  unfold row, int_add. rewrite to_int_small, Z.rem_mod_nonneg by lia.
  destruct (i mod 16 =? 0); [reflexivity |].
  rewrite app_nil_r. destruct st; reflexivity.
Qed.

Lemma display_address : dev_addr dev + to_uint (int_add addr i) = p + i.
Proof.
  unfold int_add. rewrite to_int_small, to_uint_small by lia.
  unfold p. lia.
Qed.

Lemma display_body_8 :
  shown dev addr i st 8 (row ;; d8 <- read_8 host dev (int_add addr i) ;;
           printf (P_val 2 d8)).
Proof.
  unfold shown, exec, bind. fold p. rewrite display_row. cbn [fst snd].
  rewrite read_8_spec.
  cbn [fst snd after_load mem bus stdout big_endian printf].
  rewrite display_address. unfold display_unit.
  change (Z.to_nat (8 / 8)) with 1%nat. change (Z.to_nat (8 / 4)) with 2%nat.
  rewrite unit_value_1, <- app_assoc. repeat split.
Qed.

Lemma display_body_16 :
  shown dev addr i st 16 (row ;; be <- get_big_endian ;;
            d16 <- (if be =? 0 then read_le16 host dev (int_add addr i)
                    else read_be16 host dev (int_add addr i)) ;;
            printf (P_val 4 d16)).
Proof.
  unfold shown, exec, bind. fold p. rewrite display_row.
  cbn [fst snd get_big_endian big_endian].
  unfold display_unit, unit_value.
  change (Z.to_nat (16 / 8)) with 2%nat. change (Z.to_nat (16 / 4)) with 4%nat.
  destruct (big_endian st =? 0);
    rewrite ?read_le16_spec, ?read_be16_spec
      by (cbn [mem]; apply load_bytes_ok; exact mem_ok);
    cbn [fst snd after_load mem bus stdout big_endian printf];
    rewrite display_address, <- app_assoc; repeat split.
Qed.

Lemma display_body_32 :
  shown dev addr i st 32 (row ;; be <- get_big_endian ;;
            d32 <- (if be =? 0 then read_le32 host dev (int_add addr i)
                    else read_be32 host dev (int_add addr i)) ;;
            printf (P_val 8 d32)).
Proof.
  unfold shown, exec, bind. fold p. rewrite display_row.
  cbn [fst snd get_big_endian big_endian].
  unfold display_unit, unit_value.
  change (Z.to_nat (32 / 8)) with 4%nat. change (Z.to_nat (32 / 4)) with 8%nat.
  destruct (big_endian st =? 0);
    rewrite ?read_le32_spec, ?read_be32_spec
      by (cbn [mem]; apply load_bytes_ok; exact mem_ok);
    cbn [fst snd after_load mem bus stdout big_endian printf];
    rewrite display_address, <- app_assoc; repeat split.
Qed.

End DisplayBody.

Section DisplayLoop.
Variable dev : device_t.
Variables width addr len : Z.
Variable next : Z -> Z.
Variable body : Z -> M unit.
Let wb := width / 8.
Let p := dev_addr dev + addr.
Hypothesis wb_pos : 0 < wb.
Hypothesis len_nonneg : 0 <= len.
Hypothesis next_spec : forall i, 0 <= i < len -> next i = i + wb.
Hypothesis body_shown : forall i st,
  0 <= i < len -> bytes_ok (mem st) -> shown dev addr i st width (body i).

Lemma display_loop st :
  bytes_ok (mem st) ->
  let st' := exec (for_lt (Z.to_nat len) 0 len next body) st in
  let units := Z.to_nat ((len + wb - 1) / wb) in
  mem st' = mem st /\
  big_endian st' = big_endian st /\
  bus st' = bus st ++ map (fun j => Load (p + wb * Z.of_nat j) (Z.to_nat wb))
                          (seq 0 units) /\
  stdout st'
  = stdout st ++ flat_map (fun j => display_unit (big_endian st) width addr
                                      (mem st) p (wb * Z.of_nat j))
                          (seq 0 units).
Proof.
  intros Hok. cbv zeta.
  set (J := fun (j : Z) (s : state) =>
    mem s = mem st /\
    big_endian s = big_endian st /\
    bus s = bus st ++ map (fun j => Load (p + wb * Z.of_nat j) (Z.to_nat wb))
                          (seq 0 (Z.to_nat j)) /\
    stdout s
    = stdout st ++ flat_map (fun j => display_unit (big_endian st) width addr
                                        (mem st) p (wb * Z.of_nat j))
                            (seq 0 (Z.to_nat j))).
  assert (0 <= (len + wb - 1) / wb) as HN by (apply Z.div_pos; lia).
  replace ((len + wb - 1) / wb) with (Z.max 0 ((len + wb - 1) / wb)) by lia.
  change (J (Z.max 0 ((len + wb - 1) / wb))
            (exec (for_lt (Z.to_nat len) 0 len next body) st)).
  replace 0 with (wb * 0) at 2 by lia.
  apply (for_lt_invariant J next body wb len wb_pos next_spec).
  - intros j s Hj Hlt (Hm & He & Hb & Ho).
    destruct (body_shown (wb * j) s ltac:(nia) ltac:(rewrite Hm; exact Hok))
      as (Sm & Se & Sb & So).
    unfold J. fold p in Sb, So.
    replace (Z.to_nat (j + 1)) with (S (Z.to_nat j)) by lia.
    rewrite seq_S, map_app, flat_map_app. cbn [map flat_map Nat.add].
    rewrite Z2Nat.id, app_nil_r by lia. fold wb in Sb.
    rewrite Sm, Se, Sb, So, Hm, He, Hb, Ho, <- !app_assoc.
    repeat split.
  - lia.
  - nia.
  - unfold J. cbn. rewrite !app_nil_r. repeat split.
Qed.

End DisplayLoop.

Lemma display_mem_range_in_bounds host dev width addr len st :
  width = 8 \/ width = 16 \/ width = 32 ->
  0 <= addr -> 0 <= len -> addr + len <= size dev ->
  size dev + 4 <= 2 ^ 31 -> bytes_ok (mem st) ->
  let st' := exec (display_mem_range host dev width addr len) st in
  let wb := width / 8 in
  let p := dev_addr dev + addr in
  let units := Z.to_nat ((len + wb - 1) / wb) in
  mem st' = mem st /\
  big_endian st' = big_endian st /\
  bus st' = bus st ++ map (fun j => Load (p + wb * Z.of_nat j) (Z.to_nat wb))
                          (seq 0 units) /\
  stdout st'
  = stdout st ++ flat_map (fun j => display_unit (big_endian st) width addr
                                      (mem st) p (wb * Z.of_nat j))
                          (seq 0 units) ++ [P_nl; P_nl].
Proof.
  intros Hw Ha Hl Hb Hs Hok. cbv zeta. unfold display_mem_range.
  destruct (fill_passes_checks dev addr len Ha Hl Hb ltac:(lia)) as [-> ->].
  assert (forall loop : M unit,
    (let st' := exec loop st in
     mem st' = mem st /\ big_endian st' = big_endian st /\
     bus st' = bus st ++ map (fun j => Load (dev_addr dev + addr
                                + width / 8 * Z.of_nat j)
                                (Z.to_nat (width / 8)))
                 (seq 0 (Z.to_nat ((len + width / 8 - 1) / (width / 8)))) /\
     stdout st'
     = stdout st ++ flat_map (fun j => display_unit (big_endian st) width
                                 addr (mem st) (dev_addr dev + addr)
                                 (width / 8 * Z.of_nat j))
                 (seq 0 (Z.to_nat ((len + width / 8 - 1) / (width / 8))))) ->
    let st' := exec ((loop ;; printf P_nl) ;; printf P_nl ;; ret 0) st in
    mem st' = mem st /\ big_endian st' = big_endian st /\
    bus st' = bus st ++ map (fun j => Load (dev_addr dev + addr
                               + width / 8 * Z.of_nat j)
                               (Z.to_nat (width / 8)))
                (seq 0 (Z.to_nat ((len + width / 8 - 1) / (width / 8)))) /\
    stdout st'
    = stdout st ++ flat_map (fun j => display_unit (big_endian st) width
                                addr (mem st) (dev_addr dev + addr)
                                (width / 8 * Z.of_nat j))
                (seq 0 (Z.to_nat ((len + width / 8 - 1) / (width / 8))))
              ++ [P_nl; P_nl])
    as Hend.
  { intros loop (Lm & Le & Lb & Lo). cbv zeta.
    repeat split; try assumption.
    change (stdout (exec ((loop ;; printf P_nl) ;; printf P_nl ;; ret 0) st))
      with ((stdout (exec loop st) ++ [P_nl]) ++ [P_nl]).
    rewrite Lo, <- !app_assoc. reflexivity. }
  destruct Hw as [-> | [-> | ->]]; apply Hend.
  - apply (display_loop dev 8 addr len);
      [ reflexivity | exact Hl | intros i Hi; reflexivity | | exact Hok ].
    intros i s Hi Hs'. apply display_body_8; try lia; assumption.
  - apply (display_loop dev 16 addr len);
      [ reflexivity | exact Hl | | | exact Hok ].
    + intros i Hi. unfold int_add. rewrite to_int_small by lia. reflexivity.
    + intros i s Hi Hs'. apply display_body_16; try lia; assumption.
  - apply (display_loop dev 32 addr len);
      [ reflexivity | exact Hl | | | exact Hok ].
    + intros i Hi. unfold int_add. rewrite to_int_small by lia. reflexivity.
    + intros i s Hi Hs'. apply display_body_32; try lia; assumption.
Qed.

(** X10. A display of width 8, 16 or 32 that lies inside the region reads
    one unit for every started [width_bytes] of the length, rounding up,
    in ascending order, and prints for each unit the value of its bytes in
    the byte order of the endian mode, with the address in front of every
    16th byte, and two newlines at the end.  Nothing else is read or
    printed. *)
Theorem display_shows_memory host dev width addr len st :
  width = 8 \/ width = 16 \/ width = 32 ->
  0 <= addr -> 0 <= len -> addr + len <= size dev ->
  size dev + 4 <= 2 ^ 31 -> bytes_ok (mem st) ->
  let m := display_mem_range host dev width addr len in
  let wb := width / 8 in
  let p := dev_addr dev + addr in
  let units := Z.to_nat ((len + wb - 1) / wb) in
  printed m st
  = flat_map (fun j => display_unit (big_endian st) width addr (mem st) p
                         (wb * Z.of_nat j))
             (seq 0 units) ++ [P_nl; P_nl] /\
  bus (exec m st)
  = bus st ++ map (fun j => Load (p + wb * Z.of_nat j) (Z.to_nat wb))
                  (seq 0 units).
Proof.
  intros Hw Ha Hl Hb Hs Hok. cbv zeta.
  destruct (display_mem_range_in_bounds host dev width addr len st
              Hw Ha Hl Hb Hs Hok) as (_ & _ & Lb & Lo).
  split; [apply printed_app; exact Lo | exact Lb].
Qed.

Lemma display_shows_memory_witness :
  let m := display_mem_range LITTLE_ENDIAN readme_device 16 14 3 in
  let st := initial_state (fun _ => 0) in
  printed m st = [P_row 14; P_val 4 0; P_val 4 0; P_nl; P_nl] /\
  bus (exec m st) = [Load 14 2; Load 16 2].
Proof.
  refine (display_shows_memory LITTLE_ENDIAN readme_device 16 14 3
            (initial_state (fun _ => 0)) _ _ _ _ _ _).
  - right; left; reflexivity.
  - lia.
  - lia.
  - cbn. lia.
  - cbn. lia.
  - intros q. cbn. lia.
Defined.

(** ** A change, then a display *)

Lemma store_bytes_ok bs : forall m p,
  bytes_ok m -> Forall is_byte bs -> bytes_ok (store_bytes m p bs).
Proof.
  induction bs as [| b bs IH]; intros m p Hm Hb; cbn [store_bytes];
    [exact Hm |].
  inversion Hb as [| ? ? Hb1 Hb2]; subst.
  apply IH; [| exact Hb2].
  intros q. unfold poke. destruct (q =? p); [exact Hb1 | apply Hm].
Qed.

(** X11. Inside the region, a display of one unit that follows a change at
    the same address with the same width prints the address and the value
    that was written, truncated to the width, in either endian mode and on
    a host of either byte order. *)
Theorem change_then_display host dev width addr v st :
  width = 8 \/ width = 16 \/ width = 32 ->
  0 <= addr -> addr + width / 8 <= size dev ->
  size dev + 4 <= 2 ^ 31 -> bytes_ok (mem st) ->
  let st1 := exec (change_mem_at host dev width addr v) st in
  printed (display_mem_range host dev width addr (width / 8)) st1
  = [P_row addr; P_val (Z.to_nat (width / 4)) (v mod 2 ^ width); P_nl; P_nl].
Proof.
  intros Hw Ha Hb Hs Hok. cbv zeta.
  assert (0 < width / 8) as Hwb by (destruct Hw as [-> | [-> | ->]]; cbn; lia).
  assert (uint_gt addr (size dev) = false) as Hgt.
  { unfold uint_gt. rewrite !to_uint_small by lia. apply Z.ltb_ge. lia. }
  unfold exec at 1. rewrite change_mem_at_exec by assumption. cbn [snd].
  rewrite to_uint_small by lia.
  set (bs := wire_bytes (big_endian st) (Z.to_nat (width / 8))
               (v mod 2 ^ width)).
  set (st1 := after_store st (dev_addr dev + addr) bs).
  assert (bytes_ok (mem st1)) as Hok1
    by (apply store_bytes_ok; [exact Hok | apply wire_bytes_are_bytes]).
  destruct (display_mem_range_in_bounds host dev width addr (width / 8) st1
              Hw Ha ltac:(lia) Hb Hs Hok1) as (_ & _ & _ & Lo).
  apply printed_app. rewrite Lo. f_equal.
  assert (load_bytes (mem st1) (dev_addr dev + addr) (Z.to_nat (width / 8))
          = bs) as L.
  { pose proof (length_wire_bytes (big_endian st) (Z.to_nat (width / 8))
                  (v mod 2 ^ width)) as Hlen.
    fold bs in Hlen. rewrite <- Hlen at 1. apply load_store_bytes. }
  assert (unit_value (big_endian st) bs = v mod 2 ^ width) as V.
  { subst bs. rewrite unit_value_wire_bytes.
    destruct Hw as [-> | [-> | ->]]; apply Z.mod_mod; lia. }
  destruct Hw as [-> | [-> | ->]];
    match goal with
    | |- context [seq 0 ?n] => change (seq 0 n) with [0%nat]
    end;
    cbn [flat_map app];
    unfold display_unit;
    change (big_endian st1) with (big_endian st);
    repeat match goal with
      | |- context [?k * Z.of_nat 0] => change (k * Z.of_nat 0) with 0
      end;
    change (0 mod 16 =? 0) with true; cbn [app];
    rewrite !Z.add_0_r, L, V; reflexivity.
Qed.

Lemma change_then_display_witness :
  printed (display_mem_range LITTLE_ENDIAN readme_device 32 20 (32 / 8))
          (exec (change_mem_at LITTLE_ENDIAN readme_device 32 20 204)
                (initial_state (fun _ => 0)))
  = [P_row 20; P_val 8 204; P_nl; P_nl].
Proof.
  refine (change_then_display LITTLE_ENDIAN readme_device 32 20 204
            (initial_state (fun _ => 0)) _ _ _ _ _).
  - right; right; reflexivity.
  - lia.
  - cbn. lia.
  - cbn. lia.
  - intros q. cbn. lia.
Defined.

(** ** The memory after a fill *)

Section FillLoop.
Variable body : Z -> M unit.
Variables p wb be count : Z.
Variable n : nat.
Variable bytes : Z -> list Z.
Variable st : state.
Hypothesis wb_pos : 0 < wb.
Hypothesis n_wb : Z.of_nat n = wb.
Hypothesis count_nonneg : 0 <= count.
Hypothesis length_bytes : forall j, List.length (bytes j) = n.
Hypothesis mode : big_endian st = be.
Hypothesis body_exec : forall j s,
  0 <= j < count -> big_endian s = be ->
  exec (body j) s = after_store s (p + wb * j) (bytes j).

Lemma fill_loop_memory :
  let st' := exec (for_lt (Z.to_nat count) 0 count (fun i => i + 1) body) st in
  (forall j, 0 <= j < count -> load_bytes (mem st') (p + wb * j) n = bytes j) /\
  (forall q, q < p \/ p + wb * count <= q -> mem st' q = mem st q).
Proof.
  cbv zeta.
  set (J := fun (j : Z) (s : state) =>
    (forall u, 0 <= u < j -> load_bytes (mem s) (p + wb * u) n = bytes u) /\
    (forall q, q < p \/ p + wb * j <= q -> mem s q = mem st q) /\
    big_endian s = be).
  assert (J count (exec (for_lt (Z.to_nat count) 0 count (fun i => i + 1)
                           body) st)) as HJ.
  { replace count with (Z.max 0 ((count + 1 - 1) / 1)) at 1
      by (rewrite Z.div_1_r; lia).
    replace 0 with (1 * 0) at 2 by lia.
    apply (for_lt_invariant J (fun i => i + 1) body 1 count);
      [lia | reflexivity | | lia | lia | ].
    - intros j s Hj Hlt (Hu & Hq & Hbe). rewrite Z.mul_1_l in *.
      rewrite body_exec by (try lia; assumption).
      unfold J. cbn [after_store mem big_endian].
      split; [| split; [| exact Hbe]].
      + intros u Hu'. destruct (Z.eq_dec u j) as [-> | Hne].
        * rewrite <- (length_bytes j) at 1. apply load_store_bytes.
        * rewrite <- (Hu u) by lia. apply load_bytes_ext.
          intros q Hq'. apply store_bytes_below. nia.
      + intros q Hq'. rewrite store_bytes_outside; [apply Hq; nia |].
        rewrite length_bytes. nia.
    - unfold J. repeat split; [intros u Hu'; lia | exact mode]. }
  destruct HJ as (Hu & Hq & _). split; assumption.
Qed.

End FillLoop.

Section FillStep.
Variable host : byte_order.
Variable dev : device_t.
Variables addr d32 len inc : Z.
Hypothesis addr_nonneg : 0 <= addr.
Hypothesis len_nonneg : 0 <= len.
Hypothesis in_bounds : addr + len <= size dev.
Hypothesis size_uint : size dev < 2 ^ 32.

Lemma fill_step_8 i st :
  0 <= i < len ->
  exec (write_8 host dev (int_add addr i)
          (to_uchar (uint_add d32 (int_mul i inc)))) st
  = after_store st (dev_addr dev + addr + 1 * i)
      (wire_bytes (big_endian st) 1 ((d32 + i * inc) mod 2 ^ 8)).
Proof.
  intros Hi. unfold exec. rewrite write_8_spec. cbn [snd].
  replace (to_uint (int_add addr i)) with (addr + 1 * i)
    by (unfold int_add; rewrite to_uint_to_int, to_uint_small; lia).
  unfold to_uchar.
  rewrite Z.mod_mod, (pattern_value d32 i inc 8), wire_bytes_1, Z.add_assoc
    by lia.
  reflexivity.
Qed.

Lemma fill_step_16 i st :
  0 <= i < len / 2 ->
  exec (be <- get_big_endian ;;
        if be =? 0
        then write_le16 host dev (int_add addr (int_mul 2 i))
               (to_ushort (uint_add d32 (int_mul i inc)))
        else write_be16 host dev (int_add addr (int_mul 2 i))
               (to_ushort (uint_add d32 (int_mul i inc)))) st
  = after_store st (dev_addr dev + addr + 2 * i)
      (wire_bytes (big_endian st) 2 ((d32 + i * inc) mod 2 ^ 16)).
Proof.
  intros Hi. rewrite exec_get_big_endian.
  pose proof (Z.mul_div_le len 2 ltac:(lia)) as Hdiv.
  unfold wire_bytes, exec.
  destruct (big_endian st =? 0);
    rewrite ?write_le16_spec, ?write_be16_spec; cbn [snd];
    rewrite (fill_address dev addr len) by lia;
    unfold to_ushort;
    rewrite Z.mod_mod, (pattern_value d32 i inc 16), Z.add_assoc by lia;
    reflexivity.
Qed.

Lemma fill_step_32 i st :
  0 <= i < len / 4 ->
  exec (be <- get_big_endian ;;
        if be =? 0
        then write_le32 host dev (int_add addr (int_mul 4 i))
               (uint_add d32 (int_mul i inc))
        else write_be32 host dev (int_add addr (int_mul 4 i))
               (uint_add d32 (int_mul i inc))) st
  = after_store st (dev_addr dev + addr + 4 * i)
      (wire_bytes (big_endian st) 4 ((d32 + i * inc) mod 2 ^ 32)).
Proof.
  intros Hi. rewrite exec_get_big_endian.
  pose proof (Z.mul_div_le len 4 ltac:(lia)) as Hdiv.
  unfold wire_bytes, exec.
  destruct (big_endian st =? 0);
    rewrite ?write_le32_spec, ?write_be32_spec; cbn [snd];
    rewrite (fill_address dev addr len) by lia;
    unfold to_uint at 1;
    rewrite (pattern_value d32 i inc 32), Z.add_assoc by lia;
    reflexivity.
Qed.

End FillStep.

(** X12. After a fill of width 8, 16 or 32 that lies inside the region, the
    bytes of unit [i] hold [value + i * inc] truncated to the width, in the
    byte order of the endian mode, for every [i] below [len / width_bytes];
    the bytes before the start address and from the end of the last whole
    unit on are as before. *)
Theorem fill_leaves_pattern host dev width addr value len inc st :
  width = 8 \/ width = 16 \/ width = 32 ->
  0 <= addr -> 0 <= len -> addr + len <= size dev -> size dev < 2 ^ 32 ->
  let st' := exec (fill_mem_range host dev width addr value len inc) st in
  let wb := width / 8 in
  let p := dev_addr dev + addr in
  (forall i, 0 <= i < len / wb ->
     load_bytes (mem st') (p + wb * i) (Z.to_nat wb)
     = wire_bytes (big_endian st) (Z.to_nat wb)
         ((value + i * inc) mod 2 ^ width) /\
     unit_value (big_endian st)
       (load_bytes (mem st') (p + wb * i) (Z.to_nat wb))
     = (value + i * inc) mod 2 ^ width) /\
  (forall q, q < p \/ p + wb * (len / wb) <= q -> mem st' q = mem st q).
Proof.
  intros Hw Ha Hl Hb Hs. cbv zeta. unfold fill_mem_range.
  destruct (fill_passes_checks dev addr len Ha Hl Hb Hs) as [-> ->].
  assert (forall w, w = 8 \/ w = 16 \/ w = 32 ->
          forall x, (x mod 2 ^ w) mod 2 ^ (8 * Z.of_nat (Z.to_nat (w / 8)))
                    = x mod 2 ^ w) as Hmod.
  { intros w [-> | [-> | ->]] x; apply Z.mod_mod; lia. }
  destruct Hw as [-> | [-> | ->]]; rewrite exec_bind, exec_ret.
  - change (8 / 8) with 1. rewrite Z.div_1_r. change (Z.to_nat 1) with 1%nat.
    destruct (fill_loop_memory
                (fun i => write_8 host dev (int_add addr i)
                            (to_uchar (uint_add value (int_mul i inc))))
                (dev_addr dev + addr) 1 (big_endian st) len 1
                (fun i => wire_bytes (big_endian st) 1
                            ((value + i * inc) mod 2 ^ 8)) st)
      as [HL HQ]; try lia; try reflexivity.
    + intros j. apply length_wire_bytes.
    + intros j s Hj Hbe. rewrite <- Hbe.
      apply fill_step_8 with (len := len); assumption.
    + split; [| exact HQ]. intros i Hi. rewrite (HL i Hi).
      split; [reflexivity |]. rewrite unit_value_wire_bytes.
      apply (Hmod 8). auto.
  - change (16 / 8) with 2. rewrite Z.quot_div_nonneg by lia.
    change (Z.to_nat 2) with 2%nat.
    pose proof (Z.div_pos len 2 Hl ltac:(lia)) as Hpos.
    destruct (fill_loop_memory
                (fun i =>
                   be <- get_big_endian ;;
                   if be =? 0
                   then write_le16 host dev (int_add addr (int_mul 2 i))
                          (to_ushort (uint_add value (int_mul i inc)))
                   else write_be16 host dev (int_add addr (int_mul 2 i))
                          (to_ushort (uint_add value (int_mul i inc))))
                (dev_addr dev + addr) 2 (big_endian st) (len / 2) 2
                (fun i => wire_bytes (big_endian st) 2
                            ((value + i * inc) mod 2 ^ 16)) st)
      as [HL HQ]; try lia; try reflexivity.
    + intros j. apply length_wire_bytes.
    + intros j s Hj Hbe. rewrite <- Hbe.
      apply fill_step_16 with (len := len); assumption.
    + split; [| exact HQ]. intros i Hi. rewrite (HL i Hi).
      split; [reflexivity |]. rewrite unit_value_wire_bytes.
      apply (Hmod 16). auto.
  - change (32 / 8) with 4. rewrite Z.quot_div_nonneg by lia.
    change (Z.to_nat 4) with 4%nat.
    pose proof (Z.div_pos len 4 Hl ltac:(lia)) as Hpos.
    destruct (fill_loop_memory
                (fun i =>
                   be <- get_big_endian ;;
                   if be =? 0
                   then write_le32 host dev (int_add addr (int_mul 4 i))
                          (uint_add value (int_mul i inc))
                   else write_be32 host dev (int_add addr (int_mul 4 i))
                          (uint_add value (int_mul i inc)))
                (dev_addr dev + addr) 4 (big_endian st) (len / 4) 4
                (fun i => wire_bytes (big_endian st) 4
                            ((value + i * inc) mod 2 ^ 32)) st)
      as [HL HQ]; try lia; try reflexivity.
    + intros j. apply length_wire_bytes.
    + intros j s Hj Hbe. rewrite <- Hbe.
      apply fill_step_32 with (len := len); assumption.
    + split; [| exact HQ]. intros i Hi. rewrite (HL i Hi).
      split; [reflexivity |]. rewrite unit_value_wire_bytes.
      apply (Hmod 32). auto.
Qed.

Lemma fill_leaves_pattern_witness :
  let st' := exec (fill_mem_range BIG_ENDIAN readme_device 16 8 65535 7 3)
                  (initial_state (fun _ => 0)) in
  load_bytes (mem st') (8 + 2 * 1) 2 = [2; 0] /\
  mem st' 14 = 0.
Proof.
  pose proof (fill_leaves_pattern BIG_ENDIAN readme_device 16 8 65535 7 3
                (initial_state (fun _ => 0))
                ltac:(right; left; reflexivity) ltac:(lia) ltac:(lia)
                ltac:(cbn; lia) ltac:(cbn; lia)) as [H Q].
  split.
  - exact (proj1 (H 1 ltac:(cbn; lia))).
  - exact (Q 14 ltac:(cbn; lia)).
Defined.

(** ** The offset of the region in its page *)

Lemma region_offset_mask phys : region_offset phys = Z.land phys 4080.
Proof.
  unfold region_offset. change 4096 with (2 ^ 12).
  rewrite <- Z.land_ones by lia.
  change 4294967280 with (Z.shiftl (Z.ones 28) 4).
  change 4080 with (Z.shiftl (Z.ones 8) 4).
  change (Z.ones 12) with (Z.shiftl (Z.ones 12) 0).
  apply Z.bits_inj'; intros i Hi.
  rewrite !Z.land_spec, !testbit_mask by lia.
  destruct (Z.leb_spec 4 i), (Z.leb_spec 0 i), (Z.ltb_spec i (4 + 28)),
    (Z.ltb_spec i (0 + 12)), (Z.ltb_spec i (4 + 8)); try lia;
    cbn [andb]; rewrite ?andb_true_r, ?andb_false_r; reflexivity.
Qed.

(** X13. The offset that [main] computes from the base address register lies
    in the page and is a multiple of 16; it is the address of the region
    within its 4 KiB page.  If the region is aligned on its size and the
    size divides the page, the whole region lies in the page. *)
Theorem region_offset_in_page phys size :
  0 < size -> (size | 4096) -> (size | Z.land phys 4294967280) ->
  0 <= region_offset phys < 4096 /\
  region_offset phys mod 16 = 0 /\
  region_offset phys = phys mod 4096 - phys mod 16 /\
  region_offset phys + size <= 4096.
Proof.
  intros Hsize Hpage Hbase.
  assert (0 <= region_offset phys < 4096) as Hr
    by (unfold region_offset; apply Z.mod_pos_bound; lia).
  assert (Z.land (Z.land phys 4080) (Z.land phys 15) = 0) as Hdisjoint.
  { change 4080 with (Z.shiftl (Z.ones 8) 4).
    change 15 with (Z.shiftl (Z.ones 4) 0).
    apply Z.bits_inj'; intros i Hi.
    rewrite !Z.land_spec, !testbit_mask, Z.bits_0 by lia.
    destruct (Z.leb_spec 4 i), (Z.ltb_spec i (0 + 4)); try lia;
      cbn [andb]; rewrite ?andb_false_r; reflexivity. }
  assert (phys mod 4096 = region_offset phys + phys mod 16) as Hsum.
  { rewrite region_offset_mask.
    change 4096 with (2 ^ 12). change 16 with (2 ^ 4).
    rewrite <- !Z.land_ones by lia. change (Z.ones 4) with 15.
    rewrite Z.add_nocarry_lxor, Z.lxor_lor by exact Hdisjoint.
    change 4080 with (Z.shiftl (Z.ones 8) 4).
    change 15 with (Z.shiftl (Z.ones 4) 0).
    change (Z.ones 12) with (Z.shiftl (Z.ones 12) 0).
    apply Z.bits_inj'; intros i Hi.
    rewrite Z.lor_spec, !Z.land_spec, !testbit_mask by lia.
    destruct (Z.leb_spec 4 i), (Z.leb_spec 0 i), (Z.ltb_spec i (0 + 12)),
      (Z.ltb_spec i (4 + 8)), (Z.ltb_spec i (0 + 4)); try lia;
      cbn [andb]; rewrite ?andb_true_r, ?andb_false_r, ?orb_false_r;
      reflexivity. }
  assert (region_offset phys mod 16 = 0) as H16.
  { rewrite region_offset_mask. change 16 with (2 ^ 4).
    rewrite <- Z.land_ones by lia. change (Z.ones 4) with 15.
    rewrite <- Hdisjoint.
    change 4080 with (Z.shiftl (Z.ones 8) 4).
    change 15 with (Z.shiftl (Z.ones 4) 0).
    apply Z.bits_inj'; intros i Hi.
    rewrite !Z.land_spec, !testbit_mask by lia.
    destruct (Z.leb_spec 4 i), (Z.leb_spec 0 i), (Z.ltb_spec i (0 + 4)),
      (Z.ltb_spec i (4 + 8)); try lia;
      cbn [andb]; rewrite ?andb_true_r, ?andb_false_r; reflexivity. }
  split; [exact Hr |]. split; [exact H16 |]. split; [lia |].
  destruct Hpage as [b Hb]. destruct Hbase as [a Ha].
  assert ((size | region_offset phys)) as [c Hc].
  { unfold region_offset. rewrite Ha.
    rewrite Z.mod_eq by lia.
    exists (a - (a * size / 4096) * b). rewrite Hb. ring. }
  assert (c < b) by nia. nia.
Qed.

Lemma region_offset_in_page_witness :
  region_offset 4261415940 = 3072 /\ region_offset 4261415940 + 1024 <= 4096.
Proof.
  pose proof (region_offset_in_page 4261415940 1024 ltac:(lia)
                ltac:(exists 4; reflexivity)
                ltac:(exists 4161539; reflexivity)) as (_ & _ & E & B).
  split; [exact E | exact B].
Defined.

(** ** Negative start addresses *)

(** X14. The start address is compared as an unsigned number: on a region
    smaller than 2 GiB a negative start address is refused by display,
    change and fill alike. *)
Theorem negative_address_is_refused host dev width addr d32 len inc st :
  - 2 ^ 31 <= addr < 0 -> 0 <= size dev < 2 ^ 31 ->
  address_error_reported (display_mem_range host dev width addr len) st /\
  address_error_reported (change_mem_at host dev width addr d32) st /\
  address_error_reported (fill_mem_range host dev width addr d32 len inc) st.
Proof.
  intros Ha Hs.
  assert (to_uint (size dev) < to_uint addr) as H.
  { rewrite to_uint_small by lia. unfold to_uint.
    replace addr with (addr + 2 ^ 32 + (-1) * 2 ^ 32) by lia.
    rewrite Z.mod_add, Z.mod_small by lia. lia. }
  split; [apply display_reported; exact H |].
  split; [apply change_reported; exact H | apply fill_reported; exact H].
Qed.

Lemma negative_address_is_refused_witness :
  display_mem_args "d -4 4" = Some (32, -4, 4) /\
  address_error_reported (display_mem_range LITTLE_ENDIAN readme_device 32 (-4) 4)
    (initial_state (fun _ => 0)).
Proof.
  split; [reflexivity |].
  refine (proj1 (negative_address_is_refused LITTLE_ENDIAN readme_device
                   32 (-4) 0 4 0 (initial_state (fun _ => 0)) _ _)).
  - lia.
  - cbn. lia.
Defined.

(** ** Numbers that the tool prints are numbers that it reads *)

Lemma hex_digit_cases d :
  0 <= d < 16 ->
  d = 0 \/ d = 1 \/ d = 2 \/ d = 3 \/ d = 4 \/ d = 5 \/ d = 6 \/ d = 7 \/
  d = 8 \/ d = 9 \/ d = 10 \/ d = 11 \/ d = 12 \/ d = 13 \/ d = 14 \/ d = 15.
Proof. lia. Qed.

Ltac each_hex_digit d H :=
  destruct (hex_digit_cases d H)
    as [-> | [-> | [-> | [-> | [-> | [-> | [-> | [-> | [-> | [-> | [-> |
        [-> | [-> | [-> | [-> | ->]]]]]]]]]]]]]]].

Lemma digit_of_hex_digit d :
  0 <= d < 16 -> digit_of 16 (hex_digit d) = Some d.
Proof. intros H. each_hex_digit d H; reflexivity. Qed.

Lemma hex_digit_is_no_x d : 0 <= d < 16 -> is_x (hex_digit d) = false.
Proof. intros H. each_hex_digit d H; reflexivity. Qed.

Lemma scan_digits_stop rest acc n :
  ends_number rest -> scan_digits 16 rest acc n = (acc, n, rest).
Proof.
  destruct rest as [| c r]; cbn [ends_number scan_digits];
    [reflexivity |].
  intros ->. reflexivity.
Qed.

Lemma scan_digits_cons base c r acc n :
  scan_digits base (String c r) acc n
  = match digit_of base c with
    | Some d => scan_digits base r (acc * base + d) (S n)
    | None => (acc, n, String c r)
    end.
Proof. reflexivity. Qed.

Lemma scan_number_zero r :
  scan_number 16 (String "0" r)
  = let '(v, n, s3) :=
      scan_digits 16 (if is_x (cget r 0) then rest r else r) 0 1 in
    match n with
    | O => MatchingFailure
    | S _ => Scanned (false, v) s3
    end.
Proof. reflexivity. Qed.

Lemma scan_number_digit c r :
  negb (isspace c) && negb (Ascii.eqb c NUL) && negb (Ascii.eqb c "-")
  && negb (Ascii.eqb c "+") && negb (Ascii.eqb c "0") = true ->
  scan_number 16 (String c r)
  = let '(v, n, s3) := scan_digits 16 (String c r) 0 0 in
    match n with
    | O => MatchingFailure
    | S _ => Scanned (false, v) s3
    end.
Proof.
  destruct c as [[] [] [] [] [] [] [] []]; intros H;
    try discriminate H; reflexivity.
Qed.

(** Reading the eight digits of [%.8X] gives the number back. *)
Lemma scan_number_label x unread :
  0 <= x < 2 ^ 32 -> ends_number unread ->
  scan_number 16 (hex_fixed 8 x unread) = Scanned (false, x) unread.
Proof.
  intros Hx Hrest. cbn [hex_fixed].
  assert (forall y, 0 <= y ->
            y = 16 * (y / 16) + y mod 16 /\ 0 <= y mod 16 < 16 /\
            0 <= y / 16) as Hdm.
  { intros y Hy. split; [apply Z.div_mod; lia |].
    split; [apply Z.mod_pos_bound; lia | apply Z.div_pos; lia]. }
  destruct (Hdm x ltac:(lia)) as (E0 & H0 & P1).
  set (d0 := x mod 16) in *. set (x1 := x / 16) in *.
  destruct (Hdm x1 P1) as (E1 & H1 & P2).
  set (d1 := x1 mod 16) in *. set (x2 := x1 / 16) in *.
  destruct (Hdm x2 P2) as (E2 & H2 & P3).
  set (d2 := x2 mod 16) in *. set (x3 := x2 / 16) in *.
  destruct (Hdm x3 P3) as (E3 & H3 & P4).
  set (d3 := x3 mod 16) in *. set (x4 := x3 / 16) in *.
  destruct (Hdm x4 P4) as (E4 & H4 & P5).
  set (d4 := x4 mod 16) in *. set (x5 := x4 / 16) in *.
  destruct (Hdm x5 P5) as (E5 & H5 & P6).
  set (d5 := x5 mod 16) in *. set (x6 := x5 / 16) in *.
  destruct (Hdm x6 P6) as (E6 & H6 & P7).
  set (d6 := x6 mod 16) in *. set (x7 := x6 / 16) in *.
  destruct (Hdm x7 P7) as (E7 & H7 & P8).
  set (d7 := x7 mod 16) in *. set (x8 := x7 / 16) in *.
  clearbody d0 d1 d2 d3 d4 d5 d6 d7 x1 x2 x3 x4 x5 x6 x7 x8. clear Hdm.
  assert (x = ((((((d7 * 16 + d6) * 16 + d5) * 16 + d4) * 16 + d3) * 16
                 + d2) * 16 + d1) * 16 + d0) as Ex by lia.
  assert (forall acc n,
    scan_digits 16
      (String (hex_digit d6) (String (hex_digit d5) (String (hex_digit d4)
        (String (hex_digit d3) (String (hex_digit d2) (String (hex_digit d1)
          (String (hex_digit d0) unread))))))) acc n
    = (((((((acc * 16 + d6) * 16 + d5) * 16 + d4) * 16 + d3) * 16 + d2) * 16
         + d1) * 16 + d0, (7 + n)%nat, unread)) as Htail.
  { intros acc n. cbn [scan_digits].
    rewrite !digit_of_hex_digit by assumption.
    rewrite scan_digits_stop by assumption. reflexivity. }
  clear E0 E1 E2 E3 E4 E5 E6 E7 P1 P2 P3 P4 P5 P6 P7 P8.
  destruct (Z.eq_dec d7 0) as [-> | Hnz].
  - change (hex_digit 0) with "0"%char. rewrite scan_number_zero.
    change (cget (String (hex_digit d6) ?r) 0) with (hex_digit d6).
    rewrite hex_digit_is_no_x by assumption. cbn [andb].
    rewrite Htail. cbn [Nat.add]. rewrite Ex. do 2 f_equal.
  - rewrite scan_number_digit
      by (each_hex_digit d7 H7; try reflexivity; contradiction).
    rewrite scan_digits_cons, digit_of_hex_digit by assumption.
    rewrite Htail. cbn [Nat.add]. rewrite Ex. do 2 f_equal.
Qed.

Lemma string_app_assoc (a b c : string) :
  ((a ++ b) ++ c = a ++ (b ++ c))%string.
Proof. induction a as [| x a IH]; cbn; [| rewrite IH]; reflexivity. Qed.

Lemma hex_fixed_app n : forall v acc,
  hex_fixed n v acc = (hex_fixed n v EmptyString ++ acc)%string.
Proof.
  induction n as [| n IH]; intros v acc; cbn [hex_fixed]; [reflexivity |].
  rewrite IH, (IH _ (String _ EmptyString)), string_app_assoc. reflexivity.
Qed.

Lemma skip_space_label x unread :
  skip_space (hex_fixed 8 x unread) = hex_fixed 8 x unread.
Proof.
  cbn [hex_fixed]. cbn [skip_space].
  assert (0 <= x / 16 / 16 / 16 / 16 / 16 / 16 / 16 mod 16 < 16) as H
    by (apply Z.mod_pos_bound; lia).
  each_hex_digit (x / 16 / 16 / 16 / 16 / 16 / 16 / 16 mod 16) H;
    reflexivity.
Qed.

Section RunSteps.
Variable fmt : list directive.
Variable done : list Z.

Lemma run_space_label x unread :
  run (D_space :: fmt) (String " " (hex_fixed 8 x unread)) done
  = run fmt (hex_fixed 8 x unread) done.
Proof.
  cbn [run]. change (skip_space (String " " ?s)) with (skip_space s).
  rewrite skip_space_label. reflexivity.
Qed.

Lemma run_hex_label x unread :
  0 <= x < 2 ^ 32 -> ends_number unread ->
  run (D_hex :: fmt) (hex_fixed 8 x unread) done
  = run fmt unread (done ++ [x]).
Proof.
  intros Hx Hu. cbn [run]. rewrite scan_number_label by assumption.
  unfold strtoul, ULONG_MAX.
  replace (2 ^ 64 - 1 <? x) with false by (symmetry; apply Z.ltb_ge; lia).
  rewrite to_uint_small by lia. reflexivity.
Qed.

End RunSteps.

Lemma line_of_labels (prefix : string) a v :
  (prefix ++ label a ++ " " ++ label v)%string
  = (prefix ++ hex_fixed 8 a (String " " (hex_fixed 8 v EmptyString)))%string.
Proof. unfold label. rewrite (hex_fixed_app 8 a (String " " _)). reflexivity. Qed.

(** X15. The commands read back the numbers that display prints: a change or
    display line whose address and value (or length) are written as eight
    upper-case hexadecimal digits, as in the row labels and the 32-bit
    values of a display, is parsed to those very numbers, with the default
    width and with a width given in decimal. *)
Theorem printed_numbers_parse_back a v :
  0 <= a < 2 ^ 32 -> 0 <= v < 2 ^ 32 ->
  change_mem_args ("c " ++ label a ++ " " ++ label v)
  = Some (32, to_int a, v) /\
  change_mem_args ("c16 " ++ label a ++ " " ++ label v)
  = Some (16, to_int a, v) /\
  display_mem_args ("d " ++ label a ++ " " ++ label v)
  = Some (32, to_int a, to_int v) /\
  display_mem_args ("d8 " ++ label a ++ " " ++ label v)
  = Some (8, to_int a, to_int v).
Proof.
  intros Ha Hv.
  rewrite !line_of_labels. cbn [append].
  assert (ends_number (String " " (hex_fixed 8 v EmptyString))) as E1
    by reflexivity.
  assert (ends_number EmptyString) as E2 by exact I.
  unfold change_mem_args, display_mem_args.
  change (cget (String ?c (String ?d ?r)) 1) with d.
  change (Ascii.eqb " " " ") with true.
  change (Ascii.eqb "1" " ") with false.
  change (Ascii.eqb "8" " ") with false.
  cbn iota. unfold sscanf.
  change (parse_format "%*c %x %x")
    with [D_skip_char; D_space; D_hex; D_space; D_hex].
  change (parse_format "%*c%d %x %x")
    with [D_skip_char; D_dec; D_space; D_hex; D_space; D_hex].
  change (run (D_skip_char :: ?f) (String ?c ?r) [])
    with (run f r []).
  change (run (D_dec :: ?f) (String "1" (String "6" ?r)) [])
    with (run f r [16]).
  change (run (D_dec :: ?f) (String "8" ?r) []) with (run f r [8]).
  rewrite !run_space_label.
  rewrite !(run_hex_label _ _ a) by assumption.
  rewrite !run_space_label.
  rewrite !(run_hex_label _ _ v) by assumption.
  repeat split.
Qed.

Lemma printed_numbers_parse_back_witness :
  label 20 = "00000014" /\
  change_mem_args ("c " ++ label 20 ++ " " ++ label 204)
  = Some (32, to_int 20, 204).
Proof.
  split; [reflexivity |].
  refine (proj1 (printed_numbers_parse_back 20 204 _ _)); lia.
Defined.

(** ** Truncation from address 0 *)

(** X16. From address 0, a display or a fill whose length exceeds the region
    is cut to the size of the region: it does exactly what the same command
    does with the size as its length. *)
Theorem truncation_from_address_0 host dev width value len inc st :
  0 <= size dev < 2 ^ 31 -> - 2 ^ 31 <= len < 2 ^ 31 ->
  to_uint (size dev) < to_uint len ->
  display_mem_range host dev width 0 len st
  = display_mem_range host dev width 0 (size dev) st /\
  fill_mem_range host dev width 0 value len inc st
  = fill_mem_range host dev width 0 value (size dev) inc st.
Proof.
  intros Hs Hl Hgt. unfold display_mem_range, fill_mem_range. cbv zeta.
  assert (uint_gt 0 (size dev) = false) as ->.
  { unfold uint_gt. apply Z.ltb_ge. unfold to_uint.
    rewrite Z.mod_0_l by lia. apply Z.mod_pos_bound. lia. }
  assert (uint_gt (int_add 0 len) (size dev) = true) as ->.
  { unfold uint_gt, int_add. rewrite Z.add_0_l, to_uint_to_int.
    apply Z.ltb_lt. exact Hgt. }
  assert (uint_gt (int_add 0 (size dev)) (size dev) = false) as ->.
  { unfold uint_gt, int_add. rewrite Z.add_0_l, to_uint_to_int.
    apply Z.ltb_irrefl. }
  rewrite to_int_small by lia. split; reflexivity.
Qed.

Lemma truncation_from_address_0_witness :
  display_mem_range LITTLE_ENDIAN small_device 8 0 (-1)
    (initial_state (fun _ => 0))
  = display_mem_range LITTLE_ENDIAN small_device 8 0 16
      (initial_state (fun _ => 0)).
Proof.
  refine (proj1 (truncation_from_address_0 LITTLE_ENDIAN small_device 8 0
                   (-1) 0 (initial_state (fun _ => 0)) _ _ _)).
  - cbn. lia.
  - lia.
  - cbn. lia.
Defined.
